(** Virtual pipes of wasi preview2 ([crates/wasi/src/preview2/pipe.rs]):
    a shallow embedding of [InputPipe], [OutputPipe], [WrappedRead] and
    [MemoryOutputPipe] over an explicit model of the bounded tokio mpsc
    channel that connects the two ends of a [pipe]. *)

From Stdlib Require Import String List Arith ZArith Lia Bool.
Import ListNotations.


(** ** Shared vocabulary *)

Inductive StreamState := Open | Closed.

Definition is_closed (s : StreamState) : bool :=
  match s with Closed => true | Open => false end.

(** Result of a host call: [Ok], an [anyhow::Error] returned with [Err],
    or a Rust panic (an [expect] on [None], a failed [assert!]). *)
Inductive Outcome (A : Type) :=
| Ok (a : A)
| Err (msg : string)
| Panic (msg : string).
Arguments Ok {A} a.
Arguments Err {A} msg.
Arguments Panic {A} msg.

(** An [async fn] either resolves or stays suspended forever (its future
    is never woken because the awaited condition cannot hold now). *)
Inductive Await (A : Type) :=
| Suspended
| Resolved (a : A).
Arguments Suspended {A}.
Arguments Resolved {A} a.

Definition bytes := list Byte.byte.

(** ** The bounded tokio mpsc channel of [Vec<u8>] chunks

    [permits] counts the capacity reservations ([OwnedPermit]s) taken out
    of the channel's semaphore and not yet used; [tx_alive] says whether a
    [Sender] (possibly inside a permit) still exists, [rx_alive] whether
    the [Receiver] does. *)
Record Chan := mkChan {
  queue : list bytes;
  bound : nat;
  permits : nat;
  tx_alive : bool;
  rx_alive : bool
}.

Definition has_capacity (c : Chan) : bool :=
  length (queue c) + permits c <? bound c.

Definition set_queue (c : Chan) (q : list bytes) : Chan :=
  mkChan q (bound c) (permits c) (tx_alive c) (rx_alive c).

Definition set_permits (c : Chan) (p : nat) : Chan :=
  mkChan (queue c) (bound c) p (tx_alive c) (rx_alive c).

Definition push (c : Chan) (m : bytes) : Chan := set_queue c (queue c ++ [m]).

(** [Sender] dropped: the last sender handle of the pipe is gone. *)
Definition drop_sender (c : Chan) : Chan :=
  mkChan (queue c) (bound c) (permits c) false (rx_alive c).

(** [Receiver] dropped: the semaphore is closed and queued chunks are
    drained and freed. *)
Definition drop_receiver (c : Chan) : Chan :=
  mkChan [] (bound c) (permits c) (tx_alive c) false.

Inductive TryRecvResult := RecvOk (m : bytes) | RecvEmpty | RecvDisconnected.

(** [Receiver::try_recv] *)
Definition try_recv (c : Chan) : TryRecvResult * Chan :=
  match queue c with
  | m :: q => (RecvOk m, set_queue c q)
  | [] => if tx_alive c then (RecvEmpty, c) else (RecvDisconnected, c)
  end.

(** [Receiver::recv().await]: [Some chunk], [None] once every sender is
    gone and the queue is empty, and otherwise suspended. *)
Definition recv (c : Chan) : Await (option bytes * Chan) :=
  match queue c with
  | m :: q => Resolved (Some m, set_queue c q)
  | [] => if tx_alive c then Suspended else Resolved (None, c)
  end.

Inductive TrySendResult := SendOk | SendFull | SendClosed.

(** [Sender::try_send]: a closed semaphore is reported first, then a
    missing permit. *)
Definition try_send (c : Chan) (m : bytes) : TrySendResult * Chan :=
  if negb (rx_alive c) then (SendClosed, c)
  else if has_capacity c then (SendOk, push c m)
  else (SendFull, c).

(** [Sender::send(m).await]: [true] on success, [false] for [SendError]. *)
Definition send (c : Chan) (m : bytes) : Await (bool * Chan) :=
  if negb (rx_alive c) then Resolved (false, c)
  else if has_capacity c then Resolved (true, push c m)
  else Suspended.

(** [Sender::reserve_owned().await]: takes one permit. *)
Definition reserve_owned (c : Chan) : Await (bool * Chan) :=
  if negb (rx_alive c) then Resolved (false, c)
  else if has_capacity c then Resolved (true, set_permits c (S (permits c)))
  else Suspended.

(** [OwnedPermit::send]: uses the permit, never fails. *)
Definition permit_send (c : Chan) (m : bytes) : Chan :=
  set_permits (push c m) (pred (permits c)).

(** [tokio::sync::mpsc::channel(bound)] asserts [bound > 0]. *)
Definition channel (b : nat) : Outcome Chan :=
  if b =? 0 then Panic "mpsc bounded channel requires buffer > 0"%string
  else Ok (mkChan [] b 0 true true).

(** ** [InputPipe] *)

Record InputPipe := mkInputPipe {
  in_state : StreamState;
  in_buffer : bytes
}.

(** [InputPipe::read]: [dest] is given by its length; the result lists the
    bytes written to the front of [dest] (their count is the [u64] that
    the source returns) and the reported state. The source's [Result] is
    always [Ok] here. *)
Definition InputPipe_read (ip : InputPipe) (c : Chan) (dest_len : nat)
  : (bytes * StreamState) * InputPipe * Chan :=
  let read_from_buffer := Nat.min (length (in_buffer ip)) dest_len in
  let copied := firstn read_from_buffer (in_buffer ip) in
  let buffer := skipn read_from_buffer (in_buffer ip) in
  if read_from_buffer <? dest_len then
    match try_recv c with
    | (RecvOk msg, c') =>
        let room := dest_len - read_from_buffer in
        if length msg <? room then
          ((copied ++ msg, in_state ip), mkInputPipe (in_state ip) buffer, c')
        else
          ((copied ++ firstn room msg, in_state ip),
           mkInputPipe (in_state ip) (buffer ++ skipn room msg), c')
    | (RecvEmpty, c') =>
        ((copied, in_state ip), mkInputPipe (in_state ip) buffer, c')
    | (RecvDisconnected, c') =>
        ((copied, Closed), mkInputPipe Closed buffer, c')
    end
  else ((copied, in_state ip), mkInputPipe (in_state ip) buffer, c).

(** [InputPipe::ready] *)
Definition InputPipe_ready (ip : InputPipe) (c : Chan)
  : Await (InputPipe * Chan) :=
  match recv c with
  | Suspended => Suspended
  | Resolved (None, c') => Resolved (mkInputPipe Closed (in_buffer ip), c')
  | Resolved (Some buf, c') =>
      Resolved (mkInputPipe (in_state ip) (in_buffer ip ++ buf), c')
  end.

(** ** [WrappedRead<T>]

    The wrapped [AsyncRead] is opaque: each call is given what the reader
    does at that moment. For [read], [poll] is the outcome of the single
    [poll_read] with the noop waker, as a function of the room left in
    [dest]; for [ready], [completed] is the outcome of the awaited
    [read_buf] into the 1024 bytes of scratch space. *)

Record WrappedRead := mkWrappedRead {
  wr_state : StreamState;
  wr_buffer : bytes
}.

Definition WrappedRead_new : WrappedRead := mkWrappedRead Open [].

Inductive Poll (A : Type) := Pending | Ready (a : A).
Arguments Pending {A}.
Arguments Ready {A} a.

(** [io::Result] of a read: the bytes placed in the [ReadBuf], or an error. *)
Inductive IoResult := IoOk (filled : bytes) | IoErr (msg : string).

(** [WrappedRead::read]. [dest] is given by its contents, and the call
    returns them as it leaves them. [dest.write(&self.buffer)] copies
    [l = min dest.len() buffer.len()] bytes to the front of [dest] and,
    [dest] being a [mut &mut [u8]], advances it past them: the later
    [&mut dest[l..]] is taken on the advanced slice of length [n - l], so it
    panics when [n - l < l] and otherwise starts at offset [l + l] of the
    caller's [dest]. A [ReadBuf] never holds more than the room it was
    created on. *)
Definition WrappedRead_read (w : WrappedRead) (dest : bytes)
    (poll : nat -> Poll IoResult)
  : Outcome (nat * StreamState) * bytes * WrappedRead :=
  let n := length dest in
  let l := Nat.min n (length (wr_buffer w)) in
  let dest1 := firstn l (wr_buffer w) ++ skipn l dest in
  let buffer := skipn l (wr_buffer w) in
  if negb (length buffer =? 0) then
    (Ok (l, Open), dest1, mkWrappedRead (wr_state w) buffer)
  else if is_closed (wr_state w) then
    (Ok (l, Closed), dest1, mkWrappedRead (wr_state w) buffer)
  else if n - l <? l then
    (Panic "range start index out of range for slice"%string, dest1,
     mkWrappedRead (wr_state w) buffer)
  else
    let room := n - l - l in
    if negb (room =? 0) then
      let polled :=
        match poll room with
        | Pending => Ok []
        | Ready (IoOk f) => Ok (firstn room f)
        | Ready (IoErr e) => Err e
        end in
      match polled with
      | Ok filled =>
          let state := if length filled =? 0 then Closed else wr_state w in
          (Ok (l + length filled, state),
           firstn (l + l) dest1 ++ filled ++ skipn (l + l + length filled) dest1,
           mkWrappedRead state buffer)
      | Err e => (Err e, dest1, mkWrappedRead (wr_state w) buffer)
      | Panic e => (Panic e, dest1, mkWrappedRead (wr_state w) buffer)
      end
    else (Ok (l, wr_state w), dest1, mkWrappedRead (wr_state w) buffer).

(** [WrappedRead::ready]: the pending buffer is taken, the read lands in
    the scratch space behind it, and on an error the taken bytes are not
    put back. *)
Definition WrappedRead_ready (w : WrappedRead) (completed : IoResult)
  : Outcome unit * WrappedRead :=
  if is_closed (wr_state w) then (Ok tt, w)
  else
    let bytes0 := wr_buffer w in
    match completed with
    | IoErr e => (Err e, mkWrappedRead (wr_state w) [])
    | IoOk f =>
        let got := firstn 1024 f in
        let state := if length got =? 0 then Closed else wr_state w in
        (Ok tt, mkWrappedRead state (bytes0 ++ got))
    end.

(** A call on a [WrappedRead]: [read] into a [dest] with the given contents
    with the reader's poll outcome, or a completed [ready] with the
    reader's read outcome. *)
Inductive WrOp :=
| WrRead (dest : bytes) (poll : nat -> Poll IoResult)
| WrReady (completed : IoResult).

Definition WrappedRead_call (w : WrappedRead) (o : WrOp) : WrappedRead :=
  match o with
  | WrRead d p => snd (WrappedRead_read w d p)
  | WrReady r => snd (WrappedRead_ready w r)
  end.

Definition WrappedRead_run (w : WrappedRead) (os : list WrOp) : WrappedRead :=
  fold_left WrappedRead_call os w.

(** ** [OutputPipe] *)

(** [SenderState]; the [Sender] itself is the shared [Chan]. *)
Inductive SenderState := Writable | Channel.

Record OutputPipe := mkOutputPipe {
  out_buffer : bytes;
  out_channel : option SenderState
}.

(** [OutputPipe::write]: the pending buffer is taken first, then the
    channel state; the closed case returns before either is put back. *)
Definition OutputPipe_write (op : OutputPipe) (c : Chan) (buf : bytes)
  : Outcome nat * OutputPipe * Chan :=
  let bytes0 := out_buffer op ++ buf in
  match out_channel op with
  | None => (Panic "Missing channel state"%string, mkOutputPipe [] None, c)
  | Some Writable =>
      (Ok (length buf), mkOutputPipe [] (Some Channel), permit_send c bytes0)
  | Some Channel =>
      match try_send c bytes0 with
      | (SendOk, c') => (Ok (length buf), mkOutputPipe [] (Some Channel), c')
      | (SendFull, c') =>
          (Ok (length buf), mkOutputPipe bytes0 (Some Channel), c')
      | (SendClosed, c') =>
          (Err "pipe closed"%string, mkOutputPipe [] None, drop_sender c')
      end
  end.

(** [OutputPipe::blocking_send] *)
Definition OutputPipe_blocking_send (op : OutputPipe) (c : Chan) (buf : bytes)
  : Await (Outcome unit * OutputPipe * Chan) :=
  match out_channel op with
  | None =>
      Resolved (Panic "Missing channel state"%string,
                mkOutputPipe (out_buffer op) None, c)
  | Some Writable =>
      Resolved (Ok tt, mkOutputPipe (out_buffer op) (Some Channel),
                permit_send c buf)
  | Some Channel =>
      match send c buf with
      | Suspended => Suspended
      | Resolved (true, c') =>
          Resolved (Ok tt, mkOutputPipe (out_buffer op) (Some Channel), c')
      | Resolved (false, c') =>
          Resolved (Err "channel closed"%string,
                    mkOutputPipe (out_buffer op) None, drop_sender c')
      end
  end.

(** [OutputPipe::flush]: an error of [blocking_send] hits the [expect]. *)
Definition OutputPipe_flush (op : OutputPipe) (c : Chan)
  : Await (Outcome unit * OutputPipe * Chan) :=
  match out_buffer op with
  | [] => Resolved (Ok tt, op, c)
  | b :: bs =>
      match OutputPipe_blocking_send (mkOutputPipe [] (out_channel op)) c (b :: bs) with
      | Suspended => Suspended
      | Resolved (Ok tt, op', c') => Resolved (Ok tt, op', c')
      | Resolved (Err _, op', c') =>
          Resolved (Panic "fixme: handle closed write end later"%string, op', c')
      | Resolved (Panic e, op', c') => Resolved (Panic e, op', c')
      end
  end.

(** [OutputPipe::ready] *)
Definition OutputPipe_ready (op : OutputPipe) (c : Chan)
  : Await (Outcome unit * OutputPipe * Chan) :=
  match OutputPipe_flush op c with
  | Suspended => Suspended
  | Resolved (Ok tt, op1, c1) =>
      match out_channel op1 with
      | None =>
          Resolved (Panic "Missing sender channel state"%string,
                    mkOutputPipe (out_buffer op1) None, c1)
      | Some Writable => Resolved (Ok tt, mkOutputPipe (out_buffer op1) (Some Writable), c1)
      | Some Channel =>
          match reserve_owned c1 with
          | Suspended => Suspended
          | Resolved (true, c2) =>
              Resolved (Ok tt, mkOutputPipe (out_buffer op1) (Some Writable), c2)
          | Resolved (false, c2) =>
              Resolved (Err "channel closed"%string,
                        mkOutputPipe (out_buffer op1) None, drop_sender c2)
          end
      end
  | Resolved (Err e, op1, c1) => Resolved (Err e, op1, c1)
  | Resolved (Panic e, op1, c1) => Resolved (Panic e, op1, c1)
  end.

(** Calls on the output end alone. A [ready] that stays suspended ends the
    sequence: the caller never gets control back. *)
Inductive OutOp := OWrite (buf : bytes) | OReady.

Fixpoint OutputPipe_run (op : OutputPipe) (c : Chan) (os : list OutOp)
  : list (Outcome unit) :=
  match os with
  | [] => []
  | OWrite buf :: os' =>
      match OutputPipe_write op c buf with
      | (r, op', c') =>
          let r' := match r with Ok _ => Ok tt | Err e => Err e | Panic e => Panic e end in
          r' :: OutputPipe_run op' c' os'
      end
  | OReady :: os' =>
      match OutputPipe_ready op c with
      | Suspended => []
      | Resolved (r, op', c') => r :: OutputPipe_run op' c' os'
      end
  end.

(** ** [MemoryOutputPipe] *)

Record MemoryOutputPipe := mkMemoryOutputPipe { mem_buffer : bytes }.

Definition MemoryOutputPipe_new : MemoryOutputPipe := mkMemoryOutputPipe [].

Definition MemoryOutputPipe_write (m : MemoryOutputPipe) (buf : bytes)
  : Outcome nat * MemoryOutputPipe :=
  (Ok (length buf), mkMemoryOutputPipe (mem_buffer m ++ buf)).

Definition MemoryOutputPipe_ready (m : MemoryOutputPipe)
  : Await (Outcome unit * MemoryOutputPipe) :=
  Resolved (Ok tt, m).

(** ** A pipe and the two programs that drive its ends *)

(** [pipe(bound)] *)
Definition pipe (b : nat) : Outcome (InputPipe * OutputPipe * Chan) :=
  match channel b with
  | Ok c => Ok (mkInputPipe Open [], mkOutputPipe [] (Some Channel), c)
  | Err e => Err e
  | Panic e => Panic e
  end.

(** Both ends of one pipe together with the channel they share, and three
    ghost logs: the bytes accepted by successful writes, the bytes
    delivered by reads, and the pending bytes the output end held when it
    was dropped. *)
Record System := mkSystem {
  sys_chan : Chan;
  sys_in : option InputPipe;
  sys_out : option OutputPipe;
  written : bytes;
  observed : bytes;
  abandoned : bytes
}.

Definition init (b : nat) : option System :=
  match pipe b with
  | Ok (ip, op, c) => Some (mkSystem c (Some ip) (Some op) [] [] [])
  | _ => None
  end.

Inductive Op :=
| InRead (dest_len : nat)
| InReady
| OutWrite (buf : bytes)
| OutReady
| DropIn
| DropOut.

(** One call on one end. [None]: the end is gone, or its [ready] stays
    suspended. A panic leaves the end in the state the panic left it in. *)
Definition exec (s : System) (o : Op) : option System :=
  let c := sys_chan s in
  match o with
  | InRead n =>
      match sys_in s with
      | None => None
      | Some ip =>
          match InputPipe_read ip c n with
          | ((got, _), ip', c') =>
              Some (mkSystem c' (Some ip') (sys_out s) (written s)
                             (observed s ++ got) (abandoned s))
          end
      end
  | InReady =>
      match sys_in s with
      | None => None
      | Some ip =>
          match InputPipe_ready ip c with
          | Suspended => None
          | Resolved (ip', c') =>
              Some (mkSystem c' (Some ip') (sys_out s) (written s)
                             (observed s) (abandoned s))
          end
      end
  | OutWrite buf =>
      match sys_out s with
      | None => None
      | Some op =>
          match OutputPipe_write op c buf with
          | (r, op', c') =>
              let w := match r with Ok _ => written s ++ buf | _ => written s end in
              Some (mkSystem c' (sys_in s) (Some op') w (observed s) (abandoned s))
          end
      end
  | OutReady =>
      match sys_out s with
      | None => None
      | Some op =>
          match OutputPipe_ready op c with
          | Suspended => None
          | Resolved (_, op', c') =>
              Some (mkSystem c' (sys_in s) (Some op') (written s)
                             (observed s) (abandoned s))
          end
      end
  | DropIn =>
      match sys_in s with
      | None => None
      | Some _ =>
          Some (mkSystem (drop_receiver c) None (sys_out s) (written s)
                         (observed s) (abandoned s))
      end
  | DropOut =>
      match sys_out s with
      | None => None
      | Some op =>
          let c1 := match out_channel op with
                    | Some Writable => set_permits c (pred (permits c))
                    | _ => c
                    end in
          Some (mkSystem (drop_sender c1) (sys_in s) None (written s)
                         (observed s) (out_buffer op))
      end
  end.

(** Calls that cannot complete are skipped. *)
Definition exec_all (s : System) (os : list Op) : System :=
  fold_left (fun s o => match exec s o with Some s' => s' | None => s end) os s.

Inductive Reach : System -> Prop :=
| reach_init b s : init b = Some s -> Reach s
| reach_step s o s' : Reach s -> exec s o = Some s' -> Reach s'.

(** Bytes still between the two ends: the output's pending buffer, or what
    it held when dropped. *)
Definition out_pending (s : System) : bytes :=
  match sys_out s with Some op => out_buffer op | None => abandoned s end.


Definition AB : bytes := list_byte_of_string "AB".

Definition s_AB : option System :=
  match init 1 with
  | Some s => Some (exec_all s [OutWrite AB; OutReady])
  | None => None
  end.

Example spec_scenario_AB :
  match s_AB with
  | Some s =>
      match sys_in s with
      | Some ip =>
          match InputPipe_read ip (sys_chan s) 1 with
          | ((g1, st1), ip1, c1) =>
              match InputPipe_read ip1 c1 1 with
              | ((g2, st2), _, _) =>
                  g1 = list_byte_of_string "A" /\ st1 = Open /\
                  g2 = list_byte_of_string "B" /\ st2 = Open
              end
          end
      | None => False
      end
  | None => False
  end.
Proof. vm_compute. auto. Qed.

(** ** Output end: calls after the channel slot was emptied *)

Definition missing_channel_outcome (o : OutOp) : Outcome unit :=
  match o with
  | OWrite _ => Panic "Missing channel state"%string
  | OReady => Panic "Missing sender channel state"%string
  end.

Lemma run_without_channel (c : Chan) (os : list OutOp) :
  OutputPipe_run (mkOutputPipe [] None) c os = map missing_channel_outcome os.
Proof.
  induction os as [|[buf|] os IH]; simpl; [reflexivity | |];
    rewrite IH; reflexivity.
Qed.

Lemma write_closed_shape (op : OutputPipe) (c : Chan) (buf : bytes)
    (r : Outcome nat) (op' : OutputPipe) (c' : Chan) :
  OutputPipe_write op c buf = (r, op', c') ->
  (forall e, r <> Panic e) ->
  (forall n, r <> Ok n) ->
  op' = mkOutputPipe [] None /\ c' = drop_sender c /\ r = Err "pipe closed"%string.
Proof.
  unfold OutputPipe_write, try_send.
  destruct (out_channel op) as [[|]|]; intros H Hp Ho.
  - injection H as <- <- <-. exfalso; eapply Ho; reflexivity.
  - destruct (negb (rx_alive c)); [|destruct (has_capacity c)];
      injection H as <- <- <-; try (exfalso; eapply Ho; reflexivity).
    auto.
  - injection H as <- <- <-. exfalso; eapply Hp; reflexivity.
Qed.

Lemma flush_ok_empty (op : OutputPipe) (c : Chan) (op1 : OutputPipe) (c1 : Chan) :
  OutputPipe_flush op c = Resolved (Ok tt, op1, c1) -> out_buffer op1 = [].
Proof.
  unfold OutputPipe_flush, OutputPipe_blocking_send.
  destruct (out_buffer op) as [|b bs] eqn:Hb.
  - intros H; injection H as <- <-; exact Hb.
  - simpl. destruct (out_channel op) as [[|]|].
    + intros H; injection H as <- <-; reflexivity.
    + destruct (send c (b :: bs)) as [|[[|] c']]; intros H; try discriminate.
      injection H as <- <-; reflexivity.
    + intros H; discriminate.
Qed.

(** ** Claims on the output ends *)

(** C9: [MemoryOutputPipe::write] appends the bytes and reports their full
    length without ever failing, [ready] resolves at once with success,
    and writing "a", "b", "c" in three calls accumulates "abc". *)
Theorem memory_output_pipe_write_ready :
  (forall (m : MemoryOutputPipe) (buf : bytes),
     MemoryOutputPipe_write m buf
     = (Ok (length buf), mkMemoryOutputPipe (mem_buffer m ++ buf))) /\
  (forall m : MemoryOutputPipe, MemoryOutputPipe_ready m = Resolved (Ok tt, m)) /\
  mem_buffer
    (snd (MemoryOutputPipe_write
       (snd (MemoryOutputPipe_write
          (snd (MemoryOutputPipe_write MemoryOutputPipe_new (list_byte_of_string "a")))
          (list_byte_of_string "b")))
       (list_byte_of_string "c")))
  = list_byte_of_string "abc".
Proof. repeat split. Qed.

(** C8: a write holding a reservation sends the whole pending buffer
    (old pending bytes followed by [buf]) through the permit, succeeds,
    goes back to the plain [Channel] state and leaves the pending buffer
    empty; and whenever [write] returns [Ok n], [n] is [buf]'s length. *)
Theorem output_write_reservation_and_length :
  (forall (op : OutputPipe) (c : Chan) (buf : bytes),
     out_channel op = Some Writable ->
     OutputPipe_write op c buf
     = (Ok (length buf), mkOutputPipe [] (Some Channel),
        permit_send c (out_buffer op ++ buf))) /\
  (forall (op : OutputPipe) (c : Chan) (buf : bytes) (n : nat)
          (op' : OutputPipe) (c' : Chan),
     OutputPipe_write op c buf = (Ok n, op', c') -> n = length buf).
Proof.
  split.
  - intros op c buf H. unfold OutputPipe_write. rewrite H. reflexivity.
  - intros op c buf n op' c'. unfold OutputPipe_write, try_send.
    destruct (out_channel op) as [[|]|]; [| |intros H; discriminate].
    + intros H; injection H as <- _ _; reflexivity.
    + destruct (negb (rx_alive c)); [intros H; discriminate|].
      destruct (has_capacity c); intros H; injection H as <- _ _; reflexivity.
Qed.

Lemma output_write_reservation_and_length_witness :
  out_channel (mkOutputPipe [] (Some Writable)) = Some Writable /\
  OutputPipe_write (mkOutputPipe [] (Some Writable)) (mkChan [] 1 1 true true) AB
  = (Ok (length AB), mkOutputPipe [] (Some Channel),
     permit_send (mkChan [] 1 1 true true) (out_buffer (mkOutputPipe [] (Some Writable)) ++ AB)) /\
  (OutputPipe_write (mkOutputPipe [] (Some Channel)) (mkChan [] 1 0 true true) AB
   = (Ok 2, mkOutputPipe [] (Some Channel), push (mkChan [] 1 0 true true) AB) ->
   2 = length AB).
Proof.
  split; [reflexivity|]. split.
  - apply (proj1 output_write_reservation_and_length). reflexivity.
  - apply (proj2 output_write_reservation_and_length).
Defined.

(** C5: after [OutputPipe::ready] resolves with success the pending buffer
    is empty and a reservation is held, so the next [write] of any payload
    is accepted whole at once: one chunk, exactly the payload, goes into
    the channel through the permit. *)
Theorem output_ready_then_write (op : OutputPipe) (c : Chan)
    (op' : OutputPipe) (c' : Chan) (buf : bytes) :
  OutputPipe_ready op c = Resolved (Ok tt, op', c') ->
  out_buffer op' = [] /\ out_channel op' = Some Writable /\
  OutputPipe_write op' c' buf
  = (Ok (length buf), mkOutputPipe [] (Some Channel), permit_send c' buf).
Proof.
  unfold OutputPipe_ready.
  destruct (OutputPipe_flush op c) as [|[[[[]|e|e] op1] c1]] eqn:Hf;
    intros H; try discriminate.
  pose proof (flush_ok_empty _ _ _ _ Hf) as Hb.
  destruct (out_channel op1) as [[|]|]; try discriminate.
  - injection H as <- <-. simpl. rewrite Hb. auto.
  - destruct (reserve_owned c1) as [|[[|] c2]]; try discriminate.
    injection H as <- <-. simpl. rewrite Hb. auto.
Qed.

Lemma output_ready_then_write_witness :
  OutputPipe_ready (mkOutputPipe AB (Some Channel)) (mkChan [] 2 0 true true)
  = Resolved (Ok tt, mkOutputPipe [] (Some Writable),
              mkChan [AB] 2 1 true true) /\
  out_buffer (mkOutputPipe [] (Some Writable)) = [] /\
  out_channel (mkOutputPipe [] (Some Writable)) = Some Writable /\
  OutputPipe_write (mkOutputPipe [] (Some Writable)) (mkChan [AB] 2 1 true true) AB
  = (Ok (length AB), mkOutputPipe [] (Some Channel),
     permit_send (mkChan [AB] 2 1 true true) AB).
Proof.
  split; [reflexivity|].
  apply (output_ready_then_write (mkOutputPipe AB (Some Channel)) (mkChan [] 2 0 true true)).
  reflexivity.
Defined.

(** C10: when [OutputPipe::write] fails with "pipe closed" the pending
    bytes are gone (none reached the channel), the channel slot is [None],
    and from then on every [write] panics on "Missing channel state" and
    every [ready] on "Missing sender channel state". *)
Theorem output_write_closed_leaves_no_channel (op : OutputPipe) (c : Chan)
    (buf : bytes) (op' : OutputPipe) (c' : Chan) :
  OutputPipe_write op c buf = (Err "pipe closed"%string, op', c') ->
  out_buffer op' = [] /\ out_channel op' = None /\ queue c' = queue c /\
  forall os : list OutOp, OutputPipe_run op' c' os = map missing_channel_outcome os.
Proof.
  intros H.
  destruct (write_closed_shape _ _ _ _ _ _ H) as [-> [-> _]];
    [intros e; discriminate | intros n; discriminate |].
  split; [reflexivity|]. split; [reflexivity|]. split; [reflexivity|].
  apply run_without_channel.
Qed.

Lemma output_write_closed_leaves_no_channel_witness :
  OutputPipe_write (mkOutputPipe AB (Some Channel)) (mkChan [] 1 0 true false) AB
  = (Err "pipe closed"%string, mkOutputPipe [] None, mkChan [] 1 0 false false) /\
  out_buffer (mkOutputPipe [] None) = [] /\ out_channel (mkOutputPipe [] None) = None /\
  queue (mkChan [] 1 0 false false) = queue (mkChan [] 1 0 true false) /\
  forall os : list OutOp,
    OutputPipe_run (mkOutputPipe [] None) (mkChan [] 1 0 false false) os
    = map missing_channel_outcome os.
Proof.
  split; [reflexivity|].
  apply (output_write_closed_leaves_no_channel (mkOutputPipe AB (Some Channel))
           (mkChan [] 1 0 true false) AB).
  reflexivity.
Defined.

(** C2: once the consumer is gone, a write through the plain channel handle
    fails with "pipe closed", and no later call on that output end
    (write or ready) returns [Ok]. *)
Theorem output_write_after_consumer_dropped (op : OutputPipe) (c : Chan) (buf : bytes) :
  out_channel op = Some Channel -> rx_alive c = false ->
  exists op' c',
    OutputPipe_write op c buf = (Err "pipe closed"%string, op', c') /\
    forall (os : list OutOp) (r : Outcome unit),
      In r (OutputPipe_run op' c' os) -> forall u, r <> Ok u.
Proof.
  intros Hch Hrx.
  exists (mkOutputPipe [] None), (drop_sender c).
  split.
  - unfold OutputPipe_write, try_send. rewrite Hch, Hrx. reflexivity.
  - intros os r Hin u ->. rewrite run_without_channel in Hin.
    apply in_map_iff in Hin as [[b|] [Hr _]]; discriminate.
Qed.

Lemma output_write_after_consumer_dropped_witness :
  out_channel (mkOutputPipe AB (Some Channel)) = Some Channel /\
  rx_alive (mkChan [] 1 0 true false) = false /\
  exists op' c',
    OutputPipe_write (mkOutputPipe AB (Some Channel)) (mkChan [] 1 0 true false) AB
    = (Err "pipe closed"%string, op', c') /\
    forall (os : list OutOp) (r : Outcome unit),
      In r (OutputPipe_run op' c' os) -> forall u, r <> Ok u.
Proof.
  split; [reflexivity|]. split; [reflexivity|].
  apply output_write_after_consumer_dropped; reflexivity.
Defined.

(** ** Claims on [WrappedRead] *)

Definition ABC : bytes := list_byte_of_string "ABC".

(** C1 (evaluated at the failing inputs): an open [WrappedRead] with an
    empty pending buffer, read into any non-empty [dest] while the
    reader's single poll is [Pending], delivers nothing, leaves [dest]
    untouched and yet comes back [Closed]. *)
Theorem wrapped_read_pending_closes (x : Byte.byte) (rest : bytes) :
  WrappedRead_read WrappedRead_new (x :: rest) (fun _ => Pending)
  = (Ok (0, Closed), x :: rest, mkWrappedRead Closed []).
Proof. unfold WrappedRead_read, WrappedRead_new. simpl. rewrite ?Nat.sub_0_r. reflexivity. Qed.

(** C3 counterexample: after one [ready] read "ABC" and a second one hit end
    of file, the endpoint's state is [Closed], yet a one-byte [read]
    reports [Open] alongside its byte. *)
Lemma wrapped_read_reports_open_after_closed :
  let w := WrappedRead_run WrappedRead_new [WrReady (IoOk ABC); WrReady (IoOk [])] in
  wr_state w = Closed /\
  WrappedRead_read w [Byte.x00] (fun _ => Pending)
  = (Ok (1, Open), list_byte_of_string "A",
     mkWrappedRead Closed (list_byte_of_string "BC")).
Proof. split; reflexivity. Qed.

(** Case analysis on every test of [WrappedRead_read] and [WrappedRead_ready]. *)
Ltac wr_cases H :=
  repeat match type of H with
         | context [if ?x then _ else _] => destruct x eqn:?; simpl in H
         | context [match ?p ?r with _ => _ end] =>
             destruct (p r) as [|[? | ?]] eqn:?; simpl in H
         end.

Lemma WrappedRead_call_closed (w : WrappedRead) (o : WrOp) :
  wr_state w = Closed -> wr_state (WrappedRead_call w o) = Closed.
Proof.
  destruct w as [st buf]; simpl; intros ->.
  destruct o as [d p|r]; simpl; [|reflexivity].
  unfold WrappedRead_read; simpl.
  destruct (negb (length (skipn (Nat.min (length d) (length buf)) buf) =? 0)); reflexivity.
Qed.

Lemma WrappedRead_run_closed (w : WrappedRead) (os : list WrOp) :
  wr_state w = Closed -> wr_state (WrappedRead_run w os) = Closed.
Proof.
  unfold WrappedRead_run. revert w.
  induction os as [|o os IH]; simpl; intros w H; [exact H|].
  apply IH, WrappedRead_call_closed, H.
Qed.

Lemma WrappedRead_read_reported (w : WrappedRead) (d : bytes)
    (p : nat -> Poll IoResult) (r : nat * StreamState) (d' : bytes) (w' : WrappedRead) :
  WrappedRead_read w d p = (Ok r, d', w') ->
  snd r = match wr_buffer w' with [] => wr_state w' | _ :: _ => Open end.
Proof.
  destruct w as [st buf]. unfold WrappedRead_read; simpl.
  destruct (skipn (Nat.min (length d) (length buf)) buf) as [|b bs] eqn:Hs; simpl;
    intros H; wr_cases H; try discriminate; injection H; intros; subst; simpl;
    try reflexivity.
  destruct st; [discriminate|reflexivity].
Qed.

(** ** The pipe invariant *)

Lemma room_left_drains (l : bytes) (n : nat) :
  (Nat.min (length l) n <? n) = true ->
  skipn (Nat.min (length l) n) l = [] /\ firstn (Nat.min (length l) n) l = l.
Proof.
  intros H. apply Nat.ltb_lt in H.
  replace (Nat.min (length l) n) with (length l) by lia.
  split; [apply skipn_all | apply firstn_all].
Qed.

Lemma InputPipe_read_facts (ip : InputPipe) (c : Chan) (n : nat)
    (got : bytes) (st : StreamState) (ip' : InputPipe) (c' : Chan) :
  InputPipe_read ip c n = ((got, st), ip', c') ->
  st = in_state ip' /\
  got ++ in_buffer ip' ++ concat (queue c') = in_buffer ip ++ concat (queue c) /\
  tx_alive c' = tx_alive c /\ rx_alive c' = rx_alive c /\
  (queue c = [] -> queue c' = []) /\
  (in_state ip' = Closed ->
   in_state ip = Closed \/ (queue c = [] /\ tx_alive c = false)).
Proof.
  destruct ip as [st0 b], c as [q bd p tx rx].
  unfold InputPipe_read, try_recv; simpl.
  destruct (Nat.min (length b) n <? n) eqn:Hk.
  - destruct (room_left_drains b n Hk) as [-> ->].
    destruct q as [|m q].
    + destruct tx; intros H; injection H as <- <- <- <-; simpl;
        rewrite ?app_nil_r; repeat split; auto.
    + destruct (length m <? n - Nat.min (length b) n);
        intros H; injection H as <- <- <- <-; simpl;
        repeat split; auto; try discriminate.
      * rewrite <- app_assoc. reflexivity.
      * rewrite <- !app_assoc. simpl.
        rewrite (app_assoc (firstn _ m)), firstn_skipn. reflexivity.
  - intros H; injection H as <- <- <- <-; simpl.
    repeat split; auto.
    rewrite app_assoc, firstn_skipn. reflexivity.
Qed.

Lemma InputPipe_ready_facts (ip : InputPipe) (c : Chan) (ip' : InputPipe) (c' : Chan) :
  InputPipe_ready ip c = Resolved (ip', c') ->
  in_buffer ip' ++ concat (queue c') = in_buffer ip ++ concat (queue c) /\
  tx_alive c' = tx_alive c /\ rx_alive c' = rx_alive c /\
  (queue c = [] -> queue c' = []) /\
  (in_state ip' = Closed ->
   in_state ip = Closed \/ (queue c = [] /\ tx_alive c = false)).
Proof.
  destruct ip as [st0 b], c as [q bd p tx rx].
  unfold InputPipe_ready, recv; simpl.
  destruct q as [|m q].
  - destruct tx; intros H; [discriminate|].
    injection H as <- <-; simpl. rewrite ?app_nil_r. repeat split; auto.
  - intros H; injection H as <- <-; simpl.
    repeat split; auto; try discriminate.
    rewrite <- app_assoc. reflexivity.
Qed.

Definition Inv (s : System) : Prop :=
  let c := sys_chan s in
  match sys_in s with
  | Some ip =>
      rx_alive c = true /\
      (in_state ip = Closed -> queue c = [] /\ tx_alive c = false) /\
      observed s ++ in_buffer ip ++ concat (queue c) ++ out_pending s = written s
  | None => rx_alive c = false
  end /\
  match sys_out s with
  | Some op =>
      match out_channel op with
      | Some _ => tx_alive c = true
      | None => rx_alive c = false
      end
  | None => tx_alive c = false
  end.

Ltac solve_facts :=
  repeat (split || intro); simpl in *; try discriminate; try congruence;
  rewrite ?concat_app; simpl; rewrite ?app_nil_r, <- ?app_assoc; auto.

Lemma OutputPipe_write_facts (op : OutputPipe) (c : Chan) (buf : bytes)
    (r : Outcome nat) (op' : OutputPipe) (c' : Chan) :
  OutputPipe_write op c buf = (r, op', c') ->
  rx_alive c' = rx_alive c /\
  (tx_alive c' = true -> tx_alive c = true) /\
  (out_channel op' <> None -> out_channel op <> None /\ tx_alive c' = tx_alive c) /\
  (out_channel op = None -> c' = c /\ out_channel op' = None) /\
  (rx_alive c = true -> out_channel op <> None ->
     r = Ok (length buf) /\ out_channel op' <> None /\
     concat (queue c') ++ out_buffer op' = concat (queue c) ++ out_buffer op ++ buf).
Proof.
  destruct op as [ob oc], c as [q bd p tx rx].
  unfold OutputPipe_write, try_send, has_capacity, permit_send, push,
    set_queue, set_permits, drop_sender; simpl.
  destruct oc as [[|]|]; [| destruct rx; simpl; [destruct (_ <? _)|] |];
    intros H; injection H as <- <- <-; solve_facts.
Qed.

Lemma OutputPipe_ready_facts (op : OutputPipe) (c : Chan)
    (r : Outcome unit) (op' : OutputPipe) (c' : Chan) :
  OutputPipe_ready op c = Resolved (r, op', c') ->
  rx_alive c' = rx_alive c /\
  (tx_alive c' = true -> tx_alive c = true) /\
  (out_channel op' <> None -> out_channel op <> None /\ tx_alive c' = tx_alive c) /\
  (out_channel op = None -> c' = c /\ out_channel op' = None) /\
  (rx_alive c = true -> out_channel op <> None ->
     r = Ok tt /\ out_channel op' <> None /\
     concat (queue c') ++ out_buffer op' = concat (queue c) ++ out_buffer op).
Proof.
  destruct op as [ob oc], c as [q bd p tx rx].
  unfold OutputPipe_ready, OutputPipe_flush, OutputPipe_blocking_send, send,
    reserve_owned, has_capacity, permit_send, push, set_queue, set_permits,
    drop_sender; simpl.
  intros H.
  destruct ob as [|b bs], oc as [[|]|], rx; simpl in H;
  repeat match type of H with
         | context [if ?x then _ else _] => destruct x; simpl in H
         end;
    try discriminate; injection H as <- <- <-; solve_facts.
Qed.

Lemma init_inv (b : nat) (s : System) : init b = Some s -> Inv s.
Proof.
  unfold init, pipe, channel. destruct (b =? 0); intros H; [discriminate|].
  injection H as <-. unfold Inv; simpl. repeat split; discriminate.
Qed.

Lemma conservation_step (ob got bi bi' qi qi' p w : bytes) :
  got ++ bi' ++ qi' = bi ++ qi ->
  ob ++ bi ++ qi ++ p = w ->
  (ob ++ got) ++ bi' ++ qi' ++ p = w.
Proof.
  intros Hb Hw. rewrite <- Hw, <- app_assoc.
  rewrite (app_assoc bi qi), <- Hb, <- !app_assoc. reflexivity.
Qed.

Lemma exec_inv (s : System) (o : Op) (s' : System) :
  Inv s -> exec s o = Some s' -> Inv s'.
Proof.
  destruct s as [c ii oo w ob ab]. unfold Inv, exec, out_pending; simpl.
  destruct o as [n| |buf| | |].
  - destruct ii as [ip|]; [|discriminate].
    destruct (InputPipe_read ip c n) as [[[got st] ip'] c'] eqn:Hr.
    intros [[Hrx [Hcl Hcons]] Hout] H; injection H as <-; simpl.
    destruct (InputPipe_read_facts _ _ _ _ _ _ _ Hr)
      as [_ [Hb [Htx [Hrx' [Hq Hcl']]]]].
    split; [split; [congruence|split]|].
    + intros Hc. destruct (Hcl' Hc) as [Hc0|[Hq0 Ht0]].
      * destruct (Hcl Hc0). split; [auto|congruence].
      * split; [auto|congruence].
    + exact (conservation_step _ _ _ _ _ _ _ _ Hb Hcons).
    + destruct oo as [op|]; [destruct (out_channel op)|]; congruence.
  - destruct ii as [ip|]; [|discriminate].
    destruct (InputPipe_ready ip c) as [|[ip' c']] eqn:Hr; [discriminate|].
    intros [[Hrx [Hcl Hcons]] Hout] H; injection H as <-; simpl.
    destruct (InputPipe_ready_facts _ _ _ _ Hr)
      as [Hb [Htx [Hrx' [Hq Hcl']]]].
    split; [split; [congruence|split]|].
    + intros Hc. destruct (Hcl' Hc) as [Hc0|[Hq0 Ht0]].
      * destruct (Hcl Hc0). split; [auto|congruence].
      * split; [auto|congruence].
    + rewrite <- (app_nil_r ob).
      exact (conservation_step _ [] _ _ _ _ _ _ Hb Hcons).
    + destruct oo as [op|]; [destruct (out_channel op)|]; congruence.
  - destruct oo as [op|]; [|discriminate].
    destruct (OutputPipe_write op c buf) as [[r op'] c'] eqn:Hr.
    intros [Hin Hout] H; injection H as <-; simpl.
    destruct (OutputPipe_write_facts _ _ _ _ _ _ Hr)
      as [Hrx' [Htx' [Hsome [Hnone Hok]]]].
    destruct (rx_alive c) eqn:Hrx.
    + assert (Hch : out_channel op <> None)
        by (destruct (out_channel op); congruence).
      destruct (Hok eq_refl Hch) as [-> [Hch' Hcat]].
      split.
      * destruct ii as [ip|]; [|congruence].
        destruct Hin as [_ [Hcl Hcons]].
        split; [congruence|split].
        -- intros Hc. destruct (Hcl Hc) as [_ Ht].
           destruct (out_channel op); congruence.
        -- simpl. rewrite <- Hcons, <- ?app_assoc, Hcat, <- ?app_assoc.
           reflexivity.
      * destruct (out_channel op') eqn:E; [|congruence].
        destruct (Hsome ltac:(congruence)) as [Hne ->].
        destruct (out_channel op); congruence.
    + split.
      * destruct ii as [ip|]; simpl in *; [destruct Hin; exfalso; congruence | congruence].
      * destruct (out_channel op') eqn:E; [|congruence].
        destruct (Hsome ltac:(congruence)) as [Hne ->].
        destruct (out_channel op); congruence.
  - destruct oo as [op|]; [|discriminate].
    destruct (OutputPipe_ready op c) as [|[[r op'] c']] eqn:Hr; [discriminate|].
    intros [Hin Hout] H; injection H as <-; simpl.
    destruct (OutputPipe_ready_facts _ _ _ _ _ Hr)
      as [Hrx' [Htx' [Hsome [Hnone Hok]]]].
    destruct (rx_alive c) eqn:Hrx.
    + assert (Hch : out_channel op <> None)
        by (destruct (out_channel op); congruence).
      destruct (Hok eq_refl Hch) as [_ [Hch' Hcat]].
      split.
      * destruct ii as [ip|]; [|congruence].
        destruct Hin as [_ [Hcl Hcons]].
        split; [congruence|split].
        -- intros Hc. destruct (Hcl Hc) as [_ Ht].
           destruct (out_channel op); congruence.
        -- rewrite <- Hcons, Hcat. reflexivity.
      * destruct (out_channel op') eqn:E; [|congruence].
        destruct (Hsome ltac:(congruence)) as [Hne ->].
        destruct (out_channel op); congruence.
    + split.
      * destruct ii as [ip|]; simpl in *; [destruct Hin; congruence | congruence].
      * destruct (out_channel op') eqn:E; [|congruence].
        destruct (Hsome ltac:(congruence)) as [Hne ->].
        destruct (out_channel op); congruence.
  - destruct ii as [ip|]; [|discriminate].
    intros [Hin Hout] H; injection H as <-; simpl.
    split; [reflexivity|].
    destruct oo as [op|]; [destruct (out_channel op)|]; simpl; auto.
  - destruct oo as [op|]; [|discriminate].
    intros [Hin Hout] H; injection H as <-; simpl.
    split; [|destruct (out_channel op) as [[|]|]; reflexivity].
    destruct ii as [ip|];
      [|destruct (out_channel op) as [[|]|]; simpl; exact Hin].
    destruct Hin as [Hrx [Hcl Hcons]].
    destruct (out_channel op) as [[|]|]; simpl;
      (split; [exact Hrx|split; [intros Hc; destruct (Hcl Hc); auto|exact Hcons]]).
Qed.

Lemma reach_inv (s : System) : Reach s -> Inv s.
Proof.
  induction 1 as [b s H|s o s' _ IH H].
  - exact (init_inv b s H).
  - exact (exec_inv s o s' IH H).
Qed.

Lemma exec_all_reach (s : System) (os : list Op) :
  Reach s -> Reach (exec_all s os).
Proof.
  unfold exec_all. revert s.
  induction os as [|o os IH]; simpl; intros s H; [exact H|].
  apply IH. destruct (exec s o) eqn:E; [|exact H].
  exact (reach_step s o s0 H E).
Qed.

(** ** Lemmas on runs of the pipe *)

Definition init1 : System :=
  mkSystem (mkChan [] 1 0 true true) (Some (mkInputPipe Open []))
           (Some (mkOutputPipe [] (Some Channel))) [] [] [].

Lemma reach_init1 : Reach init1.
Proof. apply (reach_init 1). reflexivity. Qed.

Lemma InputPipe_read_keeps_closed (ip : InputPipe) (c : Chan) (n : nat) :
  in_state ip = Closed -> in_state (snd (fst (InputPipe_read ip c n))) = Closed.
Proof.
  destruct ip as [st b]; simpl; intros ->. unfold InputPipe_read; simpl.
  destruct (_ <? n); [|reflexivity].
  destruct (try_recv c) as [[m| |] c']; [destruct (_ <? _)|..]; reflexivity.
Qed.

Lemma exec_keeps_closed (s : System) (o : Op) (s' : System) (ip ip' : InputPipe) :
  exec s o = Some s' -> sys_in s = Some ip -> in_state ip = Closed ->
  sys_in s' = Some ip' -> in_state ip' = Closed.
Proof.
  unfold exec. intros H Hi Hc Hi'.
  destruct o as [n| |buf| | |]; rewrite Hi in H.
  - destruct (InputPipe_read ip (sys_chan s) n) as [[[got st] ip1] c1] eqn:Hr.
    injection H as <-. simpl in Hi'. injection Hi' as <-.
    pose proof (InputPipe_read_keeps_closed ip (sys_chan s) n Hc) as K.
    rewrite Hr in K. exact K.
  - destruct (InputPipe_ready ip (sys_chan s)) as [|[ip1 c1]] eqn:Hr; [discriminate|].
    injection H as <-. simpl in Hi'. injection Hi' as <-.
    revert Hr. unfold InputPipe_ready.
    destruct (recv (sys_chan s)) as [|[[m|] c2]]; intros Hr; try discriminate;
      injection Hr as <- _; simpl; auto.
  - destruct (sys_out s) as [op|]; [|discriminate].
    destruct (OutputPipe_write op (sys_chan s) buf) as [[r op'] c'].
    injection H as <-. simpl in Hi'. congruence.
  - destruct (sys_out s) as [op|]; [|discriminate].
    destruct (OutputPipe_ready op (sys_chan s)) as [|[[r op'] c']]; [discriminate|].
    injection H as <-. simpl in Hi'. congruence.
  - injection H as <-. discriminate.
  - destruct (sys_out s) as [op|]; [|discriminate].
    injection H as <-. simpl in Hi'. congruence.
Qed.

Lemma exec_all_keeps_closed (s : System) (os : list Op) (ip ip' : InputPipe) :
  sys_in s = Some ip -> in_state ip = Closed ->
  sys_in (exec_all s os) = Some ip' -> in_state ip' = Closed.
Proof.
  unfold exec_all. revert s ip.
  induction os as [|o os IH]; simpl; intros s ip Hi Hc Hi'.
  - congruence.
  - destruct (exec s o) as [s1|] eqn:E; [|exact (IH s ip Hi Hc Hi')].
    destruct (sys_in s1) as [ip1|] eqn:Hi1.
    + apply (IH s1 ip1 Hi1); [|exact Hi'].
      exact (exec_keeps_closed s o s1 ip ip1 E Hi Hc Hi1).
    + (* the input end is gone and never comes back *)
      assert (Hnone : forall t os', sys_in t = None ->
                sys_in (fold_left (fun s o => match exec s o with
                                              | Some s' => s' | None => s end) os' t) = None).
      { intros t os'. revert t. induction os' as [|o' os' IH']; simpl; intros t Ht; [exact Ht|].
        apply IH'. destruct (exec t o') as [t'|] eqn:E'; [|exact Ht].
        revert E'. unfold exec. rewrite Ht.
        destruct o' as [n'| |b'| | |]; try discriminate.
        - destruct (sys_out t) as [op|]; [|discriminate].
          destruct (OutputPipe_write op (sys_chan t) b') as [[r op'] c'].
          intros E'; injection E' as <-; simpl; congruence.
        - destruct (sys_out t) as [op|]; [|discriminate].
          destruct (OutputPipe_ready op (sys_chan t)) as [|[[r op'] c']]; [discriminate|].
          intros E'; injection E' as <-; simpl; congruence.
        - destruct (sys_out t) as [op|]; [|discriminate].
          intros E'; injection E' as <-; simpl; congruence. }
      rewrite (Hnone s1 os Hi1) in Hi'. discriminate.
Qed.





(** ** Claims on the input ends *)

(** C3 (as amended): the state of an input end never goes from [Closed]
    back to [Open], for a [WrappedRead] under any calls and for the
    [InputPipe] of a pipe under any interleaving of calls on both ends;
    [InputPipe::read] reports the endpoint's state after the call, and
    [WrappedRead::read] reports it too unless pending bytes remain after
    the copy, in which case it reports [Open]. *)
Theorem input_state_monotonic_and_reported :
  (forall (w : WrappedRead) (os : list WrOp),
     wr_state w = Closed -> wr_state (WrappedRead_run w os) = Closed) /\
  (forall (s : System) (os : list Op) (ip ip' : InputPipe),
     sys_in s = Some ip -> in_state ip = Closed ->
     sys_in (exec_all s os) = Some ip' -> in_state ip' = Closed) /\
  (forall (ip : InputPipe) (c : Chan) (n : nat) (got : bytes) (st : StreamState)
          (ip' : InputPipe) (c' : Chan),
     InputPipe_read ip c n = ((got, st), ip', c') -> st = in_state ip') /\
  (forall (w : WrappedRead) (d : bytes) (p : nat -> Poll IoResult)
          (r : nat * StreamState) (d' : bytes) (w' : WrappedRead),
     WrappedRead_read w d p = (Ok r, d', w') ->
     snd r = match wr_buffer w' with [] => wr_state w' | _ :: _ => Open end).
Proof.
  split; [exact WrappedRead_run_closed|].
  split; [exact exec_all_keeps_closed|].
  split; [|exact WrappedRead_read_reported].
  intros ip c n got st ip' c' H.
  exact (proj1 (InputPipe_read_facts ip c n got st ip' c' H)).
Qed.

Definition BC : bytes := list_byte_of_string "BC".

Lemma input_state_monotonic_and_reported_witness :
  wr_state (WrappedRead_run (mkWrappedRead Closed BC) [WrReady (IoOk ABC)]) = Closed /\
  (sys_in (exec_all (mkSystem (mkChan [] 1 0 false true) (Some (mkInputPipe Closed BC))
                              None [] [] []) [InRead 1; InReady])
   = Some (mkInputPipe Closed (list_byte_of_string "C")) /\
   in_state (mkInputPipe Closed (list_byte_of_string "C")) = Closed) /\
  (InputPipe_read (mkInputPipe Open BC) (mkChan [] 1 0 true true) 1
   = ((list_byte_of_string "B", Open), mkInputPipe Open (list_byte_of_string "C"),
      mkChan [] 1 0 true true) /\
   Open = in_state (mkInputPipe Open (list_byte_of_string "C"))) /\
  (WrappedRead_read (mkWrappedRead Closed BC) [Byte.x00] (fun _ => Pending)
   = (Ok (1, Open), list_byte_of_string "B", mkWrappedRead Closed (list_byte_of_string "C")) /\
   snd (1, Open)
   = match wr_buffer (mkWrappedRead Closed (list_byte_of_string "C")) with
     | [] => wr_state (mkWrappedRead Closed (list_byte_of_string "C"))
     | _ :: _ => Open
     end).
Proof.
  destruct input_state_monotonic_and_reported as [H1 [H2 [H3 H4]]].
  split; [apply H1; reflexivity|].
  split; [split; [reflexivity|]; apply H2 with (ip := mkInputPipe Closed BC)
          (s := mkSystem (mkChan [] 1 0 false true) (Some (mkInputPipe Closed BC))
                         None [] [] []) (os := [InRead 1; InReady]); reflexivity|].
  split; (split; [reflexivity|]).
  - apply (H3 (mkInputPipe Open BC) (mkChan [] 1 0 true true) 1
              (list_byte_of_string "B") Open _ (mkChan [] 1 0 true true)).
    reflexivity.
  - apply (H4 (mkWrappedRead Closed BC) [Byte.x00] (fun _ => Pending) (1, Open)
              (list_byte_of_string "B")).
    reflexivity.
Defined.

(** C4: on a pipe, when the pending buffer fits in [dest] with room to
    spare and the next chunk is longer than that room, [InputPipe::read]
    delivers the whole pending buffer then the chunk's prefix that fills
    [dest], keeps the rest of the chunk as the new pending buffer, and
    reports [dest]'s full length with state [Open]. *)
Theorem input_read_oversized_chunk (s : System) (ip : InputPipe) (n : nat)
    (msg : bytes) (q : list bytes) :
  Reach s -> sys_in s = Some ip ->
  length (in_buffer ip) < n ->
  queue (sys_chan s) = msg :: q ->
  n - length (in_buffer ip) < length msg ->
  InputPipe_read ip (sys_chan s) n
  = ((in_buffer ip ++ firstn (n - length (in_buffer ip)) msg, Open),
     mkInputPipe Open (skipn (n - length (in_buffer ip)) msg),
     set_queue (sys_chan s) q) /\
  length (in_buffer ip ++ firstn (n - length (in_buffer ip)) msg) = n.
Proof.
  intros R Hi Hroom Hq Hbig.
  destruct (reach_inv s R) as [Hinv _]. rewrite Hi in Hinv.
  destruct Hinv as [_ [Hcl _]].
  assert (Hopen : in_state ip = Open).
  { destruct (in_state ip) eqn:E; [reflexivity|].
    destruct (Hcl eq_refl) as [Hq0 _]. congruence. }
  split.
  - destruct ip as [st b]; simpl in *. subst st.
    unfold InputPipe_read, try_recv; simpl.
    replace (Nat.min (length b) n) with (length b) by lia.
    rewrite skipn_all, firstn_all, Hq.
    replace (length b <? n) with true by (symmetry; apply Nat.ltb_lt; lia).
    replace (length msg <? n - length b) with false
      by (symmetry; apply Nat.ltb_ge; lia).
    reflexivity.
  - rewrite length_app, length_firstn. lia.
Qed.

Lemma input_read_oversized_chunk_witness :
  InputPipe_read (mkInputPipe Open []) (sys_chan (exec_all init1 [OutWrite ABC])) 1
  = ((in_buffer (mkInputPipe Open []) ++ firstn (1 - 0) ABC, Open),
     mkInputPipe Open (skipn (1 - 0) ABC),
     set_queue (sys_chan (exec_all init1 [OutWrite ABC])) []) /\
  length (in_buffer (mkInputPipe Open []) ++ firstn (1 - 0) ABC) = 1.
Proof.
  apply (input_read_oversized_chunk (exec_all init1 [OutWrite ABC])
           (mkInputPipe Open []) 1 ABC []).
  - apply exec_all_reach, reach_init1.
  - reflexivity.
  - simpl; lia.
  - reflexivity.
  - simpl; lia.
Defined.

(** C6 (evaluated at the failing input): the producer sends "ABC", the
    consumer reads one byte, the producer is dropped, and the consumer's
    [ready] marks the pipe [Closed] while "BC" is still pending; the next
    one-byte read then reports [Closed] alongside "B" with "C" left
    undelivered. *)
Theorem input_closed_with_pending_bytes :
  let s := exec_all init1 [OutWrite ABC; InRead 1; DropOut; InReady] in
  sys_in s = Some (mkInputPipe Closed BC) /\
  InputPipe_read (mkInputPipe Closed BC) (sys_chan s) 1
  = ((list_byte_of_string "B", Closed),
     mkInputPipe Closed (list_byte_of_string "C"), sys_chan s).
Proof. split; reflexivity. Qed.




(** * Further properties of the code *)

(** ** [WrappedRead] *)

Lemma firstn_min_length (l : bytes) (n : nat) :
  firstn (Nat.min n (length l)) l = firstn n l.
Proof.
  destruct (Nat.le_ge_cases n (length l)).
  - replace (Nat.min n (length l)) with n by lia. reflexivity.
  - replace (Nat.min n (length l)) with (length l) by lia.
    rewrite firstn_all, firstn_all2 by lia. reflexivity.
Qed.

Lemma skipn_min_length (l : bytes) (n : nat) :
  skipn (Nat.min n (length l)) l = skipn n l.
Proof.
  destruct (Nat.le_ge_cases n (length l)).
  - replace (Nat.min n (length l)) with n by lia. reflexivity.
  - replace (Nat.min n (length l)) with (length l) by lia.
    rewrite skipn_all, skipn_all2 by lia. reflexivity.
Qed.

Definition zeros (n : nat) : bytes := repeat Byte.x00 n.

Ltac nat_facts :=
  repeat match goal with
         | H : negb _ = true |- _ => apply negb_true_iff in H
         | H : negb _ = false |- _ => apply negb_false_iff in H
         | H : (_ <? _) = true |- _ => apply Nat.ltb_lt in H
         | H : (_ <? _) = false |- _ => apply Nat.ltb_ge in H
         | H : (_ =? _) = true |- _ => apply Nat.eqb_eq in H
         | H : (_ =? _) = false |- _ => apply Nat.eqb_neq in H
         end.

(** A [WrappedRead::read] that returns never reports more bytes than
    [dest] holds, and leaves [dest]'s length alone. *)
Theorem wrapped_read_within_dest (w : WrappedRead) (d : bytes)
    (p : nat -> Poll IoResult) (k : nat) (st : StreamState) (d' : bytes)
    (w' : WrappedRead) :
  WrappedRead_read w d p = (Ok (k, st), d', w') ->
  k <= length d /\ length d' = length d.
Proof.
  destruct w as [st0 b]. unfold WrappedRead_read; simpl.
  intros H; wr_cases H; try discriminate; injection H; intros; subst; nat_facts;
    rewrite ?length_app, ?length_firstn, ?length_skipn in *; simpl in *;
    rewrite ?length_app, ?length_firstn, ?length_skipn in *; lia.
Qed.

Lemma wrapped_read_within_dest_witness :
  WrappedRead_read (mkWrappedRead Open BC) (zeros 5) (fun _ => Ready (IoOk ABC))
  = (Ok (3, Open), BC ++ zeros 2 ++ list_byte_of_string "A", mkWrappedRead Open []) /\
  3 <= length (zeros 5) /\ length (BC ++ zeros 2 ++ list_byte_of_string "A") = length (zeros 5).
Proof.
  split; [reflexivity|].
  apply (wrapped_read_within_dest (mkWrappedRead Open BC) (zeros 5)
           (fun _ => Ready (IoOk ABC)) 3 Open _ (mkWrappedRead Open [])).
  reflexivity.
Defined.

(** [WrappedRead::read] polls the wrapped reader only when [dest] is more
    than twice as long as the pending buffer: otherwise its result does
    not depend on what the reader would do. *)
Theorem wrapped_read_no_poll_unless_room (w : WrappedRead) (d : bytes)
    (p p' : nat -> Poll IoResult) :
  length d <= 2 * length (wr_buffer w) ->
  WrappedRead_read w d p = WrappedRead_read w d p'.
Proof.
  destruct w as [st b]. simpl. intros Hn. unfold WrappedRead_read; simpl.
  destruct (negb (length (skipn (Nat.min (length d) (length b)) b) =? 0)); [reflexivity|].
  destruct (is_closed st); [reflexivity|].
  destruct (_ <? _) eqn:E1; [reflexivity|].
  destruct (negb (_ =? 0)) eqn:E2; [|reflexivity].
  exfalso. nat_facts. lia.
Qed.

Lemma wrapped_read_no_poll_unless_room_witness :
  length (zeros 4) <= 2 * length (wr_buffer (mkWrappedRead Open AB)) /\
  WrappedRead_read (mkWrappedRead Open AB) (zeros 4) (fun _ => Pending)
  = WrappedRead_read (mkWrappedRead Open AB) (zeros 4)
      (fun _ => Ready (IoErr "broken"%string)).
Proof.
  assert (H : length (zeros 4) <= 2 * length (wr_buffer (mkWrappedRead Open AB)))
    by (simpl; lia).
  split; [exact H|]. exact (wrapped_read_no_poll_unless_room _ _ _ _ H).
Defined.

Lemma WrappedRead_read_open_fits (b d : bytes) (p : nat -> Poll IoResult) :
  length b <= length d ->
  WrappedRead_read (mkWrappedRead Open b) d p =
  if length d - length b <? length b then
    (Panic "range start index out of range for slice"%string,
     b ++ skipn (length b) d, mkWrappedRead Open [])
  else
    let room := length d - length b - length b in
    if negb (room =? 0) then
      match p room with
      | Pending =>
          (Ok (length b, Closed),
           firstn (length b + length b) (b ++ skipn (length b) d) ++
             skipn (length b + length b) (b ++ skipn (length b) d),
           mkWrappedRead Closed [])
      | Ready (IoOk f) =>
          let filled := firstn room f in
          let state := if length filled =? 0 then Closed else Open in
          (Ok (length b + length filled, state),
           firstn (length b + length b) (b ++ skipn (length b) d) ++ filled ++
             skipn (length b + length b + length filled) (b ++ skipn (length b) d),
           mkWrappedRead state [])
      | Ready (IoErr e) =>
          (Err e, b ++ skipn (length b) d, mkWrappedRead Open [])
      end
    else (Ok (length b, Open), b ++ skipn (length b) d, mkWrappedRead Open []).
Proof.
  intros Hn. unfold WrappedRead_read; simpl.
  replace (Nat.min (length d) (length b)) with (length b) by lia.
  rewrite skipn_all, firstn_all. simpl.
  destruct (_ <? _); [reflexivity|].
  destruct (negb (_ =? 0)); [|reflexivity].
  destruct (p _) as [|[f|e]]; [simpl; rewrite !Nat.add_0_r | |]; reflexivity.
Qed.

(** When the pending buffer fits into [dest] but fills more than half of
    it, a read on an open [WrappedRead] copies the pending bytes and then
    panics: [dest] was already advanced by [dest.write], so [dest[l..]]
    is out of range. A [dest] exactly as long as the pending buffer is
    enough for the panic. *)
Theorem wrapped_read_panics_on_crowded_dest (b d : bytes) (p : nat -> Poll IoResult) :
  length b <= length d < 2 * length b ->
  WrappedRead_read (mkWrappedRead Open b) d p =
  (Panic "range start index out of range for slice"%string,
   b ++ skipn (length b) d, mkWrappedRead Open []).
Proof.
  intros Hn. rewrite WrappedRead_read_open_fits by lia.
  replace (length d - length b <? length b) with true
    by (symmetry; apply Nat.ltb_lt; lia).
  reflexivity.
Qed.

Lemma wrapped_read_panics_on_crowded_dest_witness :
  length AB <= length AB < 2 * length AB /\
  WrappedRead_read (mkWrappedRead Open AB) (zeros 2) (fun _ => Pending) =
  (Panic "range start index out of range for slice"%string,
   AB ++ skipn (length AB) (zeros 2), mkWrappedRead Open []).
Proof.
  assert (H : length AB <= length (zeros 2) < 2 * length AB) by (simpl; lia).
  split; [exact H|]. exact (wrapped_read_panics_on_crowded_dest AB (zeros 2) _ H).
Defined.

(** When [dest] is more than twice as long as the pending buffer [b] of an
    open [WrappedRead], the reader's bytes land at offset [2 * length b]
    of [dest], not right after the copied [b]: the reported count covers
    [b], then [length b] bytes of [dest] the call never wrote, then the
    reader's bytes up to the count; the reader's last [length b] bytes lie
    beyond the count, although the reader has handed them over and they
    are not kept. *)
Theorem wrapped_read_skips_twice (b d f : bytes) (p : nat -> Poll IoResult) :
  2 * length b < length d ->
  p (length d - 2 * length b) = Ready (IoOk f) ->
  let filled := firstn (length d - 2 * length b) f in
  WrappedRead_read (mkWrappedRead Open b) d p =
  (Ok (length b + length filled, if length filled =? 0 then Closed else Open),
   b ++ firstn (length b) (skipn (length b) d) ++ filled ++
     skipn (length b + length b + length filled) d,
   mkWrappedRead (if length filled =? 0 then Closed else Open) []).
Proof.
  intros Hn Hp filled. rewrite WrappedRead_read_open_fits by lia. cbv zeta.
  replace (length d - length b <? length b) with false
    by (symmetry; apply Nat.ltb_ge; lia).
  replace (length d - length b - length b) with (length d - 2 * length b) by lia.
  replace (length d - 2 * length b =? 0) with false
    by (symmetry; apply Nat.eqb_neq; lia).
  simpl negb. cbv iota. rewrite Hp. fold filled.
  assert (Hf : length filled <= length d - 2 * length b)
    by (unfold filled; rewrite length_firstn; lia).
  rewrite firstn_app_2, <- app_assoc. f_equal. f_equal. f_equal. f_equal.
  rewrite skipn_app, skipn_all2 by lia. simpl. rewrite skipn_skipn. do 2 f_equal. lia.
Qed.

Lemma wrapped_read_skips_twice_witness :
  2 * length BC < length (zeros 5) /\
  WrappedRead_read (mkWrappedRead Open BC) (zeros 5) (fun _ => Ready (IoOk ABC)) =
  (Ok (3, Open), BC ++ zeros 2 ++ list_byte_of_string "A", mkWrappedRead Open []).
Proof.
  assert (H : 2 * length BC < length (zeros 5)) by (simpl; lia).
  split; [exact H|].
  exact (wrapped_read_skips_twice BC (zeros 5) ABC (fun _ => Ready (IoOk ABC)) H eq_refl).
Defined.

(** A reader error loses the pending bytes: in [read], the bytes already
    copied out of the pending buffer into [dest] are neither reported nor
    kept; in [ready], the taken pending buffer is not restored. *)
Theorem wrapped_read_error_drops_pending (b d : bytes)
    (p : nat -> Poll IoResult) (e : string) :
  (2 * length b < length d -> p (length d - 2 * length b) = Ready (IoErr e) ->
   WrappedRead_read (mkWrappedRead Open b) d p
   = (Err e, b ++ skipn (length b) d, mkWrappedRead Open [])) /\
  WrappedRead_ready (mkWrappedRead Open b) (IoErr e) = (Err e, mkWrappedRead Open []).
Proof.
  split; [|reflexivity].
  intros Hn Hp. rewrite WrappedRead_read_open_fits by lia. cbv zeta.
  replace (length d - length b <? length b) with false
    by (symmetry; apply Nat.ltb_ge; lia).
  replace (length d - length b - length b) with (length d - 2 * length b) by lia.
  replace (length d - 2 * length b =? 0) with false
    by (symmetry; apply Nat.eqb_neq; lia).
  simpl negb. cbv iota. rewrite Hp. reflexivity.
Qed.

Lemma wrapped_read_error_drops_pending_witness :
  WrappedRead_read (mkWrappedRead Open AB) (zeros 5) (fun _ => Ready (IoErr "reset"%string))
  = (Err "reset"%string, AB ++ zeros 3, mkWrappedRead Open []) /\
  WrappedRead_ready (mkWrappedRead Open AB) (IoErr "reset"%string)
  = (Err "reset"%string, mkWrappedRead Open []).
Proof.
  destruct (wrapped_read_error_drops_pending AB (zeros 5)
              (fun _ => Ready (IoErr "reset"%string)) "reset"%string) as [H1 H2].
  split; [|exact H2].
  apply H1; [simpl; lia | reflexivity].
Defined.

(** Once [WrappedRead::read] has reported [Closed], the endpoint is closed
    with nothing pending, and whatever calls follow and whatever the reader
    does, every later [read] reports no bytes and [Closed] and leaves
    [dest] untouched. *)
Theorem wrapped_read_closed_is_final (w : WrappedRead) (d : bytes)
    (p : nat -> Poll IoResult) (k : nat) (d' : bytes) (w' : WrappedRead) :
  WrappedRead_read w d p = (Ok (k, Closed), d', w') ->
  w' = mkWrappedRead Closed [] /\
  forall (os : list WrOp) (d2 : bytes) (p2 : nat -> Poll IoResult),
    WrappedRead_read (WrappedRead_run w' os) d2 p2
    = (Ok (0, Closed), d2, mkWrappedRead Closed []).
Proof.
  intros H.
  pose proof (WrappedRead_read_reported w d p (k, Closed) d' w' H) as Hr.
  simpl in Hr.
  assert (Hw' : w' = mkWrappedRead Closed []).
  { destruct w' as [st' [|x xs]]; simpl in Hr; [subst st'; reflexivity|discriminate]. }
  split; [exact Hw'|].
  assert (Hread : forall m q, WrappedRead_read (mkWrappedRead Closed []) m q
                             = (Ok (0, Closed), m, mkWrappedRead Closed [])).
  { intros m q. unfold WrappedRead_read. simpl. rewrite Nat.min_0_r. reflexivity. }
  assert (Hrun : forall os, WrappedRead_run (mkWrappedRead Closed []) os
                            = mkWrappedRead Closed []).
  { unfold WrappedRead_run. induction os as [|[m q|r] os IH]; simpl; [reflexivity| |].
    - rewrite Hread. exact IH.
    - exact IH. }
  intros os d2 p2. rewrite Hw', Hrun. apply Hread.
Qed.

Lemma wrapped_read_closed_is_final_witness :
  WrappedRead_read (mkWrappedRead Open []) (zeros 4) (fun _ => Ready (IoOk []))
  = (Ok (0, Closed), zeros 4, mkWrappedRead Closed []) /\
  mkWrappedRead Closed [] = mkWrappedRead Closed [] /\
  forall (os : list WrOp) (d2 : bytes) (p2 : nat -> Poll IoResult),
    WrappedRead_read (WrappedRead_run (mkWrappedRead Closed []) os) d2 p2
    = (Ok (0, Closed), d2, mkWrappedRead Closed []).
Proof.
  split; [reflexivity|].
  apply (wrapped_read_closed_is_final (mkWrappedRead Open []) (zeros 4)
           (fun _ => Ready (IoOk [])) 0 (zeros 4)).
  reflexivity.
Defined.

(** ** [WrappedWrite<T>]

    The wrapped [AsyncWrite] is opaque like the reader of [WrappedRead]:
    [write] is given the outcome of its single [poll_write] as a function
    of the bytes offered, [ready] the outcome of the awaited [write_all]. *)

Record WrappedWrite := mkWrappedWrite { ww_buffer : bytes }.

Definition WrappedWrite_new : WrappedWrite := mkWrappedWrite [].

(** [io::Result<usize>] of a write. *)
Inductive IoCount := CountOk (k : nat) | CountErr (msg : string).

(** Outcome of the awaited [write_all]: every byte accepted, or an error
    after the writer had accepted the first [written] bytes (its earlier
    [poll_write]s succeeded). *)
Inductive IoUnit := UnitOk | UnitErr (written : nat) (msg : string).

(** [WrappedWrite::write]; the third component is the bytes the writer
    accepted during the call. The pending buffer is taken first, so an
    error (or [drain] past the end, which panics) leaves it empty. *)
Definition WrappedWrite_write (w : WrappedWrite) (buf : bytes)
    (poll : bytes -> Poll IoCount) : Outcome nat * WrappedWrite * bytes :=
  let bytes0 := ww_buffer w ++ buf in
  match poll bytes0 with
  | Pending => (Ok (length buf), mkWrappedWrite bytes0, [])
  | Ready (CountErr e) => (Err e, mkWrappedWrite [], [])
  | Ready (CountOk k) =>
      if length bytes0 <? k
      then (Panic "range end index out of range"%string, mkWrappedWrite [], [])
      else (Ok (length buf), mkWrappedWrite (skipn k bytes0), firstn k bytes0)
  end.

(** [WrappedWrite::ready] *)
Definition WrappedWrite_ready (w : WrappedWrite) (completed : IoUnit)
  : Outcome unit * WrappedWrite * bytes :=
  let bytes0 := ww_buffer w in
  if length bytes0 =? 0 then (Ok tt, mkWrappedWrite [], [])
  else
    match completed with
    | UnitOk => (Ok tt, mkWrappedWrite [], bytes0)
    | UnitErr k e => (Err e, mkWrappedWrite [], firstn k bytes0)
    end.

Inductive WwOp :=
| WwWrite (buf : bytes) (poll : bytes -> Poll IoCount)
| WwReady (completed : IoUnit).

Definition WrappedWrite_call (w : WrappedWrite) (o : WwOp)
  : Outcome unit * WrappedWrite * bytes :=
  match o with
  | WwWrite buf p =>
      match WrappedWrite_write w buf p with
      | (Ok _, w', s) => (Ok tt, w', s)
      | (Err e, w', s) => (Err e, w', s)
      | (Panic e, w', s) => (Panic e, w', s)
      end
  | WwReady r => WrappedWrite_ready w r
  end.

(** A run: whether every call returned [Ok], the bytes the writer accepted
    in order, and the final endpoint. *)
Fixpoint WrappedWrite_run (w : WrappedWrite) (os : list WwOp)
  : bool * bytes * WrappedWrite :=
  match os with
  | [] => (true, [], w)
  | o :: os' =>
      match WrappedWrite_call w o with
      | (r, w1, s1) =>
          match WrappedWrite_run w1 os' with
          | (ok, s, w') =>
              (match r with Ok _ => ok | _ => false end, s1 ++ s, w')
          end
      end
  end.

Definition WwOp_bytes (o : WwOp) : bytes :=
  match o with WwWrite buf _ => buf | WwReady _ => [] end.

Lemma WrappedWrite_call_conserves (w : WrappedWrite) (o : WwOp)
    (w' : WrappedWrite) (s : bytes) (u : unit) :
  WrappedWrite_call w o = (Ok u, w', s) ->
  s ++ ww_buffer w' = ww_buffer w ++ WwOp_bytes o.
Proof.
  destruct w as [b], o as [buf p|r]; simpl.
  - unfold WrappedWrite_write; simpl.
    destruct (p (b ++ buf)) as [|[k|e]]; simpl.
    + intros H; injection H; intros; subst. reflexivity.
    + destruct (length (b ++ buf) <? k); intros H; [discriminate|].
      injection H; intros; subst. simpl. apply firstn_skipn.
    + discriminate.
  - unfold WrappedWrite_ready; simpl.
    destruct (length b =? 0) eqn:E.
    + intros H; injection H; intros; subst. simpl.
      destruct b; [reflexivity|discriminate].
    + destruct r; intros H; [|discriminate].
      injection H; intros; subst. simpl. rewrite !app_nil_r. reflexivity.
Qed.

(** Over any sequence of [WrappedWrite] calls none of which fails, the
    bytes the wrapped writer accepted followed by what is still pending
    equal the initial pending bytes followed by every written [buf], in
    order: buffering never drops, duplicates or reorders bytes. *)
Theorem wrapped_write_preserves_byte_order (w : WrappedWrite) (os : list WwOp)
    (s : bytes) (w' : WrappedWrite) :
  WrappedWrite_run w os = (true, s, w') ->
  s ++ ww_buffer w' = ww_buffer w ++ concat (map WwOp_bytes os).
Proof.
  revert w s. induction os as [|o os IH]; simpl; intros w s H.
  - injection H as <- <-. rewrite app_nil_r. reflexivity.
  - destruct (WrappedWrite_call w o) as [[r w1] s1] eqn:Hc.
    destruct (WrappedWrite_run w1 os) as [[ok s2] w2] eqn:Hr.
    destruct r as [u|e|e]; [|discriminate|discriminate].
    injection H as -> <- ->.
    rewrite <- app_assoc, (IH w1 s2 Hr), app_assoc.
    rewrite (WrappedWrite_call_conserves w o w1 s1 u Hc), <- app_assoc.
    reflexivity.
Qed.

Lemma wrapped_write_preserves_byte_order_witness :
  let os := [WwWrite AB (fun _ => Pending); WwWrite BC (fun _ => Ready (CountOk 3));
             WwReady UnitOk; WwWrite ABC (fun _ => Ready (CountOk 1))] in
  WrappedWrite_run WrappedWrite_new os
  = (true, AB ++ list_byte_of_string "B" ++ list_byte_of_string "C" ++ list_byte_of_string "A",
     mkWrappedWrite BC) /\
  (AB ++ list_byte_of_string "B" ++ list_byte_of_string "C" ++ list_byte_of_string "A")
    ++ ww_buffer (mkWrappedWrite BC)
  = ww_buffer WrappedWrite_new ++ concat (map WwOp_bytes os).
Proof.
  intros os. split; [reflexivity|].
  apply (wrapped_write_preserves_byte_order WrappedWrite_new os). reflexivity.
Defined.

(** [WrappedWrite::write] reports the full length of [buf] whenever it
    succeeds, even when the writer accepted nothing; an error of the
    single [poll_write] discards every pending byte, [buf] included; and a
    failed [ready] leaves nothing pending: the writer has taken at most a
    prefix of the pending bytes, and the rest is dropped. *)
Theorem wrapped_write_accepts_or_drops (w : WrappedWrite) (buf : bytes)
    (p : bytes -> Poll IoCount) :
  (forall n w' s, WrappedWrite_write w buf p = (Ok n, w', s) -> n = length buf) /\
  (forall e, p (ww_buffer w ++ buf) = Ready (CountErr e) ->
   WrappedWrite_write w buf p = (Err e, mkWrappedWrite [], [])) /\
  (forall e r w' s, WrappedWrite_ready w r = (Err e, w', s) ->
   w' = mkWrappedWrite [] /\ exists dropped, s ++ dropped = ww_buffer w).
Proof.
  destruct w as [b]; unfold WrappedWrite_write, WrappedWrite_ready; simpl.
  split; [|split].
  - intros n w' s. destruct (p (b ++ buf)) as [|[k|e]].
    + intros H; injection H as <- _ _; reflexivity.
    + destruct (length (b ++ buf) <? k); intros H; [discriminate|].
      injection H as <- _ _; reflexivity.
    + discriminate.
  - intros e ->. reflexivity.
  - intros e r w' s. destruct (length b =? 0); [discriminate|].
    destruct r as [|k e']; intros H; [discriminate|]. injection H as _ <- <-.
    split; [reflexivity|]. exists (skipn k b). apply firstn_skipn.
Qed.

Lemma wrapped_write_accepts_or_drops_witness :
  (WrappedWrite_write (mkWrappedWrite AB) BC (fun _ => Pending)
   = (Ok 2, mkWrappedWrite (AB ++ BC), []) /\ 2 = length BC) /\
  (WrappedWrite_write (mkWrappedWrite AB) BC (fun _ => Ready (CountErr "EPIPE"%string))
   = (Err "EPIPE"%string, mkWrappedWrite [], [])) /\
  (WrappedWrite_ready (mkWrappedWrite AB) (UnitErr 1 "EPIPE"%string)
   = (Err "EPIPE"%string, mkWrappedWrite [], list_byte_of_string "A") /\
   mkWrappedWrite [] = mkWrappedWrite [] /\
   exists dropped, list_byte_of_string "A" ++ dropped = ww_buffer (mkWrappedWrite AB)).
Proof.
  destruct (wrapped_write_accepts_or_drops (mkWrappedWrite AB) BC (fun _ => Pending))
    as [H1 _].
  destruct (wrapped_write_accepts_or_drops (mkWrappedWrite AB) BC
              (fun _ => Ready (CountErr "EPIPE"%string))) as [_ [H2 H3]].
  split; [split; [reflexivity|] |split].
  - exact (H1 2 (mkWrappedWrite (AB ++ BC)) [] eq_refl).
  - apply H2. reflexivity.
  - split; [reflexivity|].
    exact (H3 "EPIPE"%string (UnitErr 1 "EPIPE"%string) _ _ eq_refl).
Defined.

(** ** [InputPipe] *)

(** [InputPipe::read] never delivers more than [dest]'s length, and what it
    delivers is the front of the bytes held by the pending buffer and then
    the queued chunks, taken in order. *)
Theorem input_read_within_dest (ip : InputPipe) (c : Chan) (n : nat)
    (got : bytes) (st : StreamState) (ip' : InputPipe) (c' : Chan) :
  InputPipe_read ip c n = ((got, st), ip', c') ->
  length got <= n /\
  got ++ in_buffer ip' ++ concat (queue c') = in_buffer ip ++ concat (queue c).
Proof.
  intros H. split; [|exact (proj1 (proj2 (InputPipe_read_facts _ _ _ _ _ _ _ H)))].
  revert H. destruct ip as [st0 b]. unfold InputPipe_read, try_recv; simpl.
  assert (Hc : length (firstn (Nat.min (length b) n) b) = Nat.min (length b) n)
    by (rewrite length_firstn; lia).
  destruct (Nat.min (length b) n <? n) eqn:Hk.
  - apply Nat.ltb_lt in Hk.
    destruct (queue c) as [|m q].
    + destruct (tx_alive c); intros H; injection H; intros; subst; lia.
    + destruct (length m <? n - Nat.min (length b) n) eqn:Hm.
      * apply Nat.ltb_lt in Hm. intros H; injection H; intros; subst.
        rewrite length_app. lia.
      * intros H; injection H; intros; subst.
        rewrite length_app, !length_firstn. lia.
  - intros H; injection H; intros; subst. lia.
Qed.

Lemma input_read_within_dest_witness :
  InputPipe_read (mkInputPipe Open AB) (mkChan [ABC] 1 0 true true) 3
  = ((AB ++ list_byte_of_string "A", Open), mkInputPipe Open BC, mkChan [] 1 0 true true) /\
  length (AB ++ list_byte_of_string "A") <= 3 /\
  (AB ++ list_byte_of_string "A") ++ in_buffer (mkInputPipe Open BC)
    ++ concat (queue (mkChan [] 1 0 true true))
  = in_buffer (mkInputPipe Open AB) ++ concat (queue (mkChan [ABC] 1 0 true true)).
Proof.
  split; [reflexivity|].
  apply (input_read_within_dest (mkInputPipe Open AB) (mkChan [ABC] 1 0 true true) 3
           _ Open (mkInputPipe Open BC) (mkChan [] 1 0 true true)).
  reflexivity.
Defined.

(** On a pipe whose input end is [Closed], [read] hands out the pending
    bytes in order, at most [dest]'s length at a time, always reporting
    [Closed] and leaving the channel alone, and [ready] resolves at once
    without changing anything. *)
Theorem input_closed_drains_then_stays (s : System) (ip : InputPipe) (n : nat) :
  Reach s -> sys_in s = Some ip -> in_state ip = Closed ->
  InputPipe_read ip (sys_chan s) n
  = ((firstn n (in_buffer ip), Closed), mkInputPipe Closed (skipn n (in_buffer ip)),
     sys_chan s) /\
  InputPipe_ready ip (sys_chan s) = Resolved (ip, sys_chan s).
Proof.
  intros R Hi Hc.
  destruct (reach_inv s R) as [Hinv _]. rewrite Hi in Hinv.
  destruct Hinv as [_ [Hcl _]]. destruct (Hcl Hc) as [Hq Ht].
  destruct ip as [st b]; simpl in *; subst st.
  split.
  - unfold InputPipe_read, try_recv; simpl. rewrite Hq, Ht.
    rewrite Nat.min_comm, firstn_min_length, skipn_min_length.
    destruct (Nat.min n (length b) <? n); reflexivity.
  - unfold InputPipe_ready, recv. rewrite Hq, Ht. reflexivity.
Qed.

Lemma input_closed_drains_then_stays_witness :
  let s := exec_all init1 [OutWrite ABC; InRead 1; DropOut; InReady] in
  InputPipe_read (mkInputPipe Closed BC) (sys_chan s) 1
  = ((firstn 1 BC, Closed), mkInputPipe Closed (skipn 1 BC), sys_chan s) /\
  InputPipe_ready (mkInputPipe Closed BC) (sys_chan s)
  = Resolved (mkInputPipe Closed BC, sys_chan s).
Proof.
  intros s. apply input_closed_drains_then_stays.
  - apply exec_all_reach, reach_init1.
  - reflexivity.
  - reflexivity.
Defined.

(** ** Capacity of the channel *)

Definition held (oc : option SenderState) : nat :=
  match oc with Some Writable => 1 | _ => 0 end.

Definition held_permits (s : System) : nat :=
  match sys_out s with Some op => held (out_channel op) | None => 0 end.

Ltac ltb_facts :=
  repeat match goal with
         | H : (_ <? _) = true |- _ => apply Nat.ltb_lt in H
         | H : (_ <? _) = false |- _ => apply Nat.ltb_ge in H
         end.

Lemma OutputPipe_write_capacity (op : OutputPipe) (c : Chan) (buf : bytes)
    (r : Outcome nat) (op' : OutputPipe) (c' : Chan) :
  OutputPipe_write op c buf = (r, op', c') ->
  permits c = held (out_channel op) -> length (queue c) + permits c <= bound c ->
  bound c' = bound c /\ permits c' = held (out_channel op') /\
  length (queue c') + permits c' <= bound c'.
Proof.
  destruct op as [ob oc], c as [q bd p tx rx].
  unfold OutputPipe_write, try_send, has_capacity, permit_send, push,
    set_queue, set_permits, drop_sender; simpl.
  destruct oc as [[|]|]; [| destruct rx; simpl; [destruct (_ <? _) eqn:E|] |];
    intros H; injection H; intros; subst; simpl in *; ltb_facts;
    rewrite ?length_app in *; simpl in *; repeat split; lia.
Qed.

Lemma OutputPipe_ready_capacity (op : OutputPipe) (c : Chan)
    (r : Outcome unit) (op' : OutputPipe) (c' : Chan) :
  OutputPipe_ready op c = Resolved (r, op', c') ->
  permits c = held (out_channel op) -> length (queue c) + permits c <= bound c ->
  bound c' = bound c /\ permits c' = held (out_channel op') /\
  length (queue c') + permits c' <= bound c'.
Proof.
  destruct op as [ob oc], c as [q bd p tx rx].
  unfold OutputPipe_ready, OutputPipe_flush, OutputPipe_blocking_send, send,
    reserve_owned, has_capacity, permit_send, push, set_queue, set_permits,
    drop_sender; simpl.
  intros H.
  destruct ob as [|b bs], oc as [[|]|], rx; simpl in H;
  repeat match type of H with
         | context [if ?x then _ else _] => destruct x eqn:?; simpl in H
         end;
    try discriminate; injection H; intros; subst; simpl in *; ltb_facts;
    rewrite ?length_app in *; simpl in *; repeat split; lia.
Qed.

Lemma InputPipe_read_capacity (ip : InputPipe) (c : Chan) (n : nat) :
  let c' := snd (InputPipe_read ip c n) in
  bound c' = bound c /\ permits c' = permits c /\
  length (queue c') <= length (queue c).
Proof.
  destruct ip as [st b], c as [q bd p tx rx].
  unfold InputPipe_read, try_recv, set_queue; simpl.
  destruct (_ <? n); simpl; [|auto].
  destruct q as [|m q]; [destruct tx; simpl; auto|].
  destruct (_ <? _); simpl; repeat split; lia.
Qed.

Lemma exec_capacity (s : System) (o : Op) (s' : System) :
  permits (sys_chan s) = held_permits s ->
  length (queue (sys_chan s)) + permits (sys_chan s) <= bound (sys_chan s) ->
  exec s o = Some s' ->
  bound (sys_chan s') = bound (sys_chan s) /\
  permits (sys_chan s') = held_permits s' /\
  length (queue (sys_chan s')) + permits (sys_chan s') <= bound (sys_chan s').
Proof.
  destruct s as [c ii oo w ob ab]. unfold exec, held_permits; simpl.
  intros Hp Hb. destruct o as [n| |buf| | |].
  - destruct ii as [ip|]; [|discriminate].
    pose proof (InputPipe_read_capacity ip c n) as K.
    destruct (InputPipe_read ip c n) as [[[got st] ip'] c'].
    intros H; injection H as <-; simpl in *. lia.
  - destruct ii as [ip|]; [|discriminate].
    unfold InputPipe_ready, recv.
    destruct (queue c) as [|m q] eqn:Hq; [destruct (tx_alive c)|];
      intros H; try discriminate; injection H as <-; simpl; rewrite ?Hq in *;
      simpl in *; repeat split; lia.
  - destruct oo as [op|]; [|discriminate].
    destruct (OutputPipe_write op c buf) as [[r op'] c'] eqn:Hw.
    intros H; injection H as <-; simpl.
    destruct (OutputPipe_write_capacity _ _ _ _ _ _ Hw Hp Hb) as [K1 [K2 K3]].
    auto.
  - destruct oo as [op|]; [|discriminate].
    destruct (OutputPipe_ready op c) as [|[[r op'] c']] eqn:Hw; [discriminate|].
    intros H; injection H as <-; simpl.
    destruct (OutputPipe_ready_capacity _ _ _ _ _ Hw Hp Hb) as [K1 [K2 K3]].
    auto.
  - destruct ii; [|discriminate]. intros H; injection H as <-; simpl. lia.
  - destruct oo as [op|]; [|discriminate]. intros H; injection H as <-; simpl.
    destruct (out_channel op) as [[|]|]; simpl in *; lia.
Qed.

(** In every reachable state of a pipe the output end holds at most one
    capacity reservation, held exactly while it is in the reservation
    state, and the queued chunks together with that reservation never
    exceed the bound the pipe was created with. *)
Theorem pipe_respects_bound (s : System) :
  Reach s ->
  permits (sys_chan s) = held_permits s /\ held_permits s <= 1 /\
  length (queue (sys_chan s)) + permits (sys_chan s) <= bound (sys_chan s).
Proof.
  assert (H1 : forall s, held_permits s <= 1).
  { intros t. unfold held_permits, held.
    destruct (sys_out t) as [op|]; [destruct (out_channel op) as [[|]|]|]; lia. }
  intros R. induction R as [b s Hi|s o s' _ [IHp [_ IHb]] He].
  - revert Hi. unfold init, pipe, channel. destruct (b =? 0); intros Hi; [discriminate|].
    injection Hi as <-. simpl. unfold held_permits; simpl. lia.
  - destruct (exec_capacity s o s' IHp IHb He) as [_ [K1 K2]]. auto.
Qed.

Lemma pipe_respects_bound_witness :
  let s := exec_all init1 [OutReady; OutWrite AB; OutReady; OutWrite ABC] in
  permits (sys_chan s) = held_permits s /\ held_permits s <= 1 /\
  length (queue (sys_chan s)) + permits (sys_chan s) <= bound (sys_chan s).
Proof.
  intros s. apply pipe_respects_bound. apply exec_all_reach, reach_init1.
Defined.

(** ** The output end after the consumer is gone *)

(** [OutputPipe::ready] on a plain channel handle whose consumer has been
    dropped: with pending bytes the flush fails and hits its [expect];
    without, the reservation fails with "channel closed". Either way the
    pending bytes and the sender are gone. *)
Theorem output_ready_after_consumer_dropped (op : OutputPipe) (c : Chan) :
  out_channel op = Some Channel -> rx_alive c = false ->
  OutputPipe_ready op c =
  Resolved (match out_buffer op with
            | [] => Err "channel closed"%string
            | _ => Panic "fixme: handle closed write end later"%string
            end, mkOutputPipe [] None, drop_sender c).
Proof.
  destruct op as [ob oc], c as [q bd p tx rx]. simpl. intros -> ->.
  destruct ob as [|b bs]; reflexivity.
Qed.

Lemma output_ready_after_consumer_dropped_witness :
  out_channel (mkOutputPipe AB (Some Channel)) = Some Channel /\
  rx_alive (mkChan [] 1 0 true false) = false /\
  OutputPipe_ready (mkOutputPipe AB (Some Channel)) (mkChan [] 1 0 true false) =
  Resolved (Panic "fixme: handle closed write end later"%string,
            mkOutputPipe [] None, drop_sender (mkChan [] 1 0 true false)).
Proof.
  split; [reflexivity|]. split; [reflexivity|].
  apply (output_ready_after_consumer_dropped (mkOutputPipe AB (Some Channel))
           (mkChan [] 1 0 true false)); reflexivity.
Defined.

(** A reservation taken by [ready] before the consumer was dropped hides
    the disconnect from the next [write]: it reports all of [buf] as
    written, and the bytes only reach the freed channel. The [ready] that
    follows reports the failure. *)
Theorem output_reserved_write_after_consumer_dropped
    (op : OutputPipe) (c : Chan) (buf : bytes) :
  out_channel op = Some Writable -> rx_alive c = false ->
  exists op' c',
    OutputPipe_write op c buf = (Ok (length buf), op', c') /\
    rx_alive c' = false /\
    OutputPipe_ready op' c' =
    Resolved (Err "channel closed"%string, mkOutputPipe [] None, drop_sender c').
Proof.
  destruct op as [ob oc], c as [q bd p tx rx]. simpl. intros -> ->.
  eexists _, _. split; [reflexivity|]. split; reflexivity.
Qed.

Lemma output_reserved_write_after_consumer_dropped_witness :
  out_channel (mkOutputPipe [] (Some Writable)) = Some Writable /\
  rx_alive (mkChan [] 1 1 true false) = false /\
  exists op' c',
    OutputPipe_write (mkOutputPipe [] (Some Writable)) (mkChan [] 1 1 true false) AB
    = (Ok (length AB), op', c') /\
    rx_alive c' = false /\
    OutputPipe_ready op' c' =
    Resolved (Err "channel closed"%string, mkOutputPipe [] None, drop_sender c').
Proof.
  split; [reflexivity|]. split; [reflexivity|].
  apply output_reserved_write_after_consumer_dropped; reflexivity.
Defined.

(** ** Writes while the queue is full *)

Lemma OutputPipe_write_full (ob buf : bytes) (c : Chan) :
  rx_alive c = true -> has_capacity c = false ->
  OutputPipe_write (mkOutputPipe ob (Some Channel)) c buf =
  (Ok (length buf), mkOutputPipe (ob ++ buf) (Some Channel), c).
Proof.
  intros Hrx Hcap. unfold OutputPipe_write, try_send; simpl.
  rewrite Hrx, Hcap. reflexivity.
Qed.

Fixpoint OutputPipe_write_all (op : OutputPipe) (c : Chan) (bufs : list bytes)
  : list (Outcome nat) * OutputPipe * Chan :=
  match bufs with
  | [] => ([], op, c)
  | b :: bs =>
      match OutputPipe_write op c b with
      | (r, op', c') =>
          match OutputPipe_write_all op' c' bs with
          | (rs, op'', c'') => (r :: rs, op'', c'')
          end
      end
  end.

(** On a plain channel handle whose queue has no room while the consumer
    is alive, every [write] succeeds with its full length, the channel is
    not touched, and the written bytes pile up in the pending buffer in
    order: the buffer is not bounded by the channel's bound. *)
Theorem output_writes_accumulate_when_full
    (ob : bytes) (c : Chan) (bufs : list bytes) :
  rx_alive c = true -> has_capacity c = false ->
  OutputPipe_write_all (mkOutputPipe ob (Some Channel)) c bufs =
  (map (fun b => Ok (length b)) bufs,
   mkOutputPipe (ob ++ concat bufs) (Some Channel), c).
Proof.
  intros Hrx Hcap. revert ob. induction bufs as [|b bs IH]; intros ob; simpl.
  - rewrite app_nil_r. reflexivity.
  - rewrite OutputPipe_write_full by assumption. rewrite IH, app_assoc.
    reflexivity.
Qed.

Lemma output_writes_accumulate_when_full_witness :
  rx_alive (mkChan [AB] 1 0 true true) = true /\
  has_capacity (mkChan [AB] 1 0 true true) = false /\
  OutputPipe_write_all (mkOutputPipe [] (Some Channel)) (mkChan [AB] 1 0 true true)
    [ABC; BC] =
  (map (fun b => Ok (length b)) [ABC; BC],
   mkOutputPipe ([] ++ concat [ABC; BC]) (Some Channel), mkChan [AB] 1 0 true true).
Proof.
  split; [reflexivity|]. split; [reflexivity|].
  apply output_writes_accumulate_when_full; reflexivity.
Defined.

(** ** Repeated [ready] *)

Lemma OutputPipe_ready_ok_shape (op : OutputPipe) (c : Chan)
    (op' : OutputPipe) (c' : Chan) :
  OutputPipe_ready op c = Resolved (Ok tt, op', c') ->
  op' = mkOutputPipe [] (Some Writable).
Proof.
  destruct op as [ob oc], c as [q bd p tx rx].
  unfold OutputPipe_ready, OutputPipe_flush, OutputPipe_blocking_send, send,
    reserve_owned, has_capacity, permit_send, push, set_queue, set_permits,
    drop_sender; simpl.
  intros H.
  destruct ob as [|b bs], oc as [[|]|], rx; simpl in H;
  repeat match type of H with
         | context [if ?x then _ else _] => destruct x eqn:?; simpl in H
         end;
    try discriminate; injection H; intros; subst; reflexivity.
Qed.

(** A [ready] that succeeded leaves a reservation with nothing pending, so
    a second [ready] succeeds at once and takes no second permit. *)
Theorem output_ready_idempotent (op : OutputPipe) (c : Chan)
    (op' : OutputPipe) (c' : Chan) :
  OutputPipe_ready op c = Resolved (Ok tt, op', c') ->
  OutputPipe_ready op' c' = Resolved (Ok tt, op', c').
Proof.
  intros H. rewrite (OutputPipe_ready_ok_shape _ _ _ _ H). reflexivity.
Qed.

Lemma output_ready_idempotent_witness :
  OutputPipe_ready (mkOutputPipe AB (Some Channel)) (mkChan [] 2 0 true true) =
  Resolved (Ok tt, mkOutputPipe [] (Some Writable), mkChan [AB] 2 1 true true) /\
  OutputPipe_ready (mkOutputPipe [] (Some Writable)) (mkChan [AB] 2 1 true true) =
  Resolved (Ok tt, mkOutputPipe [] (Some Writable), mkChan [AB] 2 1 true true).
Proof.
  split; [reflexivity|].
  apply (output_ready_idempotent (mkOutputPipe AB (Some Channel))
           (mkChan [] 2 0 true true)).
  reflexivity.
Defined.

(** * The host's standard input ([stdio.rs]) *)

(** What [std::io::Read::read] (or [read_vectored]) on the process's stdin
    returned: a byte count, or an [io::Error] of some kind. *)
Inductive IoErrorKind := Interrupted | OtherKind.

Inductive OsRead := OsOk (n : nat) | OsErr (kind : IoErrorKind) (msg : string).

(** [Stdin::read]: [dest] is given by its length; the OS call is its
    outcome [r]. *)
Definition Stdin_read (dest_len : nat) (r : OsRead) : Outcome (nat * StreamState) :=
  match r with
  | OsOk 0 => Ok (0, Closed)
  | OsOk n => Ok (n, Open)
  | OsErr Interrupted _ => Ok (0, Open)
  | OsErr OtherKind e => Err e
  end.

(** [Stdin::read_vectored]: the slices are given by their lengths. *)
Definition Stdin_read_vectored (bufs : list nat) (r : OsRead)
  : Outcome (nat * StreamState) :=
  match r with
  | OsOk 0 => Ok (0, Closed)
  | OsOk n => Ok (n, Open)
  | OsErr Interrupted _ => Ok (0, Open)
  | OsErr OtherKind e => Err e
  end.

(** [std::io::Read]'s contract: a successful read fills at most the
    space it was given. *)
Definition os_read_fits (space : nat) (r : OsRead) : Prop :=
  match r with OsOk n => n <= space | OsErr _ _ => True end.

(** A read into no space at all: stdin reports its stream Closed whenever
    the OS call succeeds, although nothing says the input has ended, while
    an [InputPipe] takes nothing from its buffer or channel and reports its
    state unchanged. *)
Theorem empty_read_closes_stdin_not_pipe (r : OsRead) (bufs : list nat)
    (ip : InputPipe) (c : Chan) :
  os_read_fits 0 r -> list_sum bufs = 0 ->
  (forall n, r = OsOk n ->
     Stdin_read 0 r = Ok (0, Closed) /\ Stdin_read_vectored bufs r = Ok (0, Closed)) /\
  InputPipe_read ip c 0 = (([], in_state ip), ip, c).
Proof.
  intros Hfit _. split.
  - intros n ->. simpl in Hfit. assert (n = 0) as -> by lia. split; reflexivity.
  - destruct ip as [st b]. unfold InputPipe_read; simpl.
    rewrite Nat.min_0_r. reflexivity.
Qed.

Lemma empty_read_closes_stdin_not_pipe_witness :
  os_read_fits 0 (OsOk 0) /\ list_sum [0; 0] = 0 /\
  Stdin_read 0 (OsOk 0) = Ok (0, Closed) /\
  InputPipe_read (mkInputPipe Open AB) (mkChan [] 1 0 true true) 0 =
  (([], Open), mkInputPipe Open AB, (mkChan [] 1 0 true true)).
Proof.
  assert (Hfit : os_read_fits 0 (OsOk 0)) by (simpl; lia).
  assert (Hsum : list_sum [0; 0] = 0) by reflexivity.
  destruct (empty_read_closes_stdin_not_pipe (OsOk 0) [0; 0]
              (mkInputPipe Open AB) (mkChan [] 1 0 true true) Hfit Hsum) as [H1 H2].
  split; [exact Hfit|]. split; [exact Hsum|]. split.
  - apply (H1 0 eq_refl).
  - exact H2.
Defined.

(** * Wall-clock times ([clocks.rs]) *)

(** A [Duration] or a [SystemTime] counted in nanoseconds; a [SystemTime]
    is relative to [UNIX_EPOCH] and may lie before it. *)
Record Datetime := mkDatetime {
  seconds : Z;
  nanoseconds : Z
}.

Definition NANOS_PER_SEC : Z := 1000000000.

(** [Duration::as_secs] and [Duration::subsec_nanos], as used by
    [wall_clock::Host::now] and [resolution]. *)
Definition Datetime_of_duration (d : Z) : Datetime :=
  mkDatetime (d / NANOS_PER_SEC) (d mod NANOS_PER_SEC).

(** [impl TryFrom<SystemTime> for Datetime]: [duration_since(UNIX_EPOCH)]
    fails for a time before the epoch. *)
Definition Datetime_try_from (t : Z) : Outcome Datetime :=
  if (t <? 0)%Z then Err "second time provided was later than self"%string
  else Ok (Datetime_of_duration t).

Definition Datetime_le (a b : Datetime) : Prop :=
  (seconds a < seconds b)%Z \/
  (seconds a = seconds b /\ (nanoseconds a <= nanoseconds b)%Z).

(** The conversion fails exactly for times before the epoch; otherwise the
    [Datetime] is exact: its nanoseconds lie below one second, and seconds
    and nanoseconds together give back the time. *)
Theorem datetime_try_from_exact (t : Z) :
  ((t < 0)%Z -> exists e, Datetime_try_from t = Err e) /\
  ((0 <= t)%Z -> exists d, Datetime_try_from t = Ok d /\
     (0 <= seconds d)%Z /\ (0 <= nanoseconds d < NANOS_PER_SEC)%Z /\
     (seconds d * NANOS_PER_SEC + nanoseconds d = t)%Z).
Proof.
  unfold Datetime_try_from, Datetime_of_duration, NANOS_PER_SEC.
  split; intros H.
  - apply Z.ltb_lt in H. rewrite H. eexists; reflexivity.
  - assert (Hb : (t <? 0)%Z = false) by (apply Z.ltb_ge; exact H). rewrite Hb.
    eexists; split; [reflexivity|]. simpl.
    pose proof (Z.div_mod t 1000000000) as E.
    pose proof (Z.mod_pos_bound t 1000000000) as B.
    split; [apply Z.div_pos; lia|]. split; lia.
Qed.

Lemma datetime_try_from_exact_witness :
  (exists e, Datetime_try_from (-1) = Err e) /\
  exists d, Datetime_try_from 1500000000 = Ok d /\
     (0 <= seconds d)%Z /\ (0 <= nanoseconds d < NANOS_PER_SEC)%Z /\
     (seconds d * NANOS_PER_SEC + nanoseconds d = 1500000000)%Z.
Proof.
  split.
  - apply (proj1 (datetime_try_from_exact (-1))). lia.
  - apply (proj2 (datetime_try_from_exact 1500000000)). lia.
Defined.

(** On durations (and times after the epoch) the conversion preserves and
    reflects order: comparing the [Datetime]s field by field, seconds
    first, is comparing the times. *)
Theorem datetime_order (t1 t2 : Z) :
  (0 <= t1)%Z -> (0 <= t2)%Z ->
  Datetime_le (Datetime_of_duration t1) (Datetime_of_duration t2) <-> (t1 <= t2)%Z.
Proof.
  intros H1 H2. unfold Datetime_le, Datetime_of_duration, NANOS_PER_SEC; simpl.
  pose proof (Z.div_mod t1 1000000000) as E1.
  pose proof (Z.mod_pos_bound t1 1000000000) as B1.
  pose proof (Z.div_mod t2 1000000000) as E2.
  pose proof (Z.mod_pos_bound t2 1000000000) as B2.
  specialize (E1 ltac:(lia)). specialize (B1 ltac:(lia)).
  specialize (E2 ltac:(lia)). specialize (B2 ltac:(lia)).
  set (s1 := (t1 / 1000000000)%Z) in *. set (n1 := (t1 mod 1000000000)%Z) in *.
  set (s2 := (t2 / 1000000000)%Z) in *. set (n2 := (t2 mod 1000000000)%Z) in *.
  split.
  - intros [Hs|[Hs Hn]]; nia.
  - intros Hle. destruct (Z.lt_trichotomy s1 s2) as [Hs|[Hs|Hs]].
    + left. exact Hs.
    + right. split; [exact Hs|]. nia.
    + exfalso. nia.
Qed.

Lemma datetime_order_witness :
  (0 <= 999999999)%Z /\ (0 <= 1000000000)%Z /\
  Datetime_le (Datetime_of_duration 999999999) (Datetime_of_duration 1000000000).
Proof.
  split; [lia|]. split; [lia|].
  apply (datetime_order 999999999 1000000000); lia.
Defined.
